(** * Story Guardian: the analysis and correction engine of [index.js]

    A shallow embedding of the validator's pure core: the pattern library,
    [analyzeMessage] with its three checks, [correctMessage] with its
    [fallbackCorrection], and [showWarnings].

    Texts are JavaScript strings, that is sequences of UTF-16 code units.
    The regular expressions of the source are kept as syntax trees and run
    by a backtracking matcher that follows the ECMAScript semantics of the
    constructs the source uses (leftmost start, ordered alternation, greedy
    quantifiers, the [g] flag with its mutable [lastIndex]). *)

From Stdlib Require Import String Ascii DecimalString.
From Stdlib Require Import List NArith ZArith PeanoNat Bool Lia Permutation.
Import ListNotations.
Open Scope list_scope.

Set Implicit Arguments.

(** ** Strings *)

Definition jsstring := list N.

Definition lit (s : string) : jsstring :=
  map N_of_ascii (list_ascii_of_string s).
Arguments lit s%_string.

Definition memb (c : N) (l : list N) : bool := existsb (N.eqb c) l.

(** LineTerminator: LF, CR, LS, PS. *)
Definition isLineTerminator (c : N) : bool :=
  memb c [10; 13; 8232; 8233]%N.

(** WhiteSpace and LineTerminator code units: the class [\s], also what
    [trim] strips. *)
Definition isWhiteSpace (c : N) : bool :=
  memb c [9; 10; 11; 12; 13; 32; 160; 5760; 8232; 8233; 8239; 8287;
          12288; 65279]%N
  || (N.leb 8192 c && N.leb c 8202).

(** The same units, listed. *)
Definition whiteSpaceUnits : list N :=
  [9; 10; 11; 12; 13; 32; 160; 5760; 8192; 8193; 8194; 8195; 8196; 8197;
   8198; 8199; 8200; 8201; 8202; 8232; 8233; 8239; 8287; 12288; 65279]%N.

Definition isUpperAscii (c : N) : bool := N.leb 65 c && N.leb c 90.
Definition isLowerAscii (c : N) : bool := N.leb 97 c && N.leb c 122.
Definition isDigit (c : N) : bool := N.leb 48 c && N.leb c 57.

(** [\w] without the [u] flag: [A-Za-z0-9_]. *)
Definition isWordChar (c : N) : bool :=
  isUpperAscii c || isLowerAscii c || isDigit c || N.eqb c 95.

(** Canonicalize of the [i] flag (no [u] flag): the upper-case form.  Every
    pattern character of the source is ASCII; a code unit of 128 or more
    never canonicalizes to an ASCII unit, so it is left as it is. *)
Definition canonicalize (c : N) : N :=
  if isLowerAscii c then (c - 32)%N else c.

Definition chr_eq (ignoreCase : bool) (c ch : N) : bool :=
  if ignoreCase then N.eqb (canonicalize c) (canonicalize ch) else N.eqb c ch.

(** ** Regular expressions *)

Inductive charset : Type :=
| AnyChar                       (* .   *)
| WordChars                     (* \w  *)
| SpaceChars                    (* \s  *)
| OneOf (l : list N)            (* [abc]  *)
| NoneOf (l : list N).          (* [^abc] *)

Definition in_cs (cs : charset) (c : N) : bool :=
  match cs with
  | AnyChar => negb (isLineTerminator c)
  | WordChars => isWordChar c
  | SpaceChars => isWhiteSpace c
  | OneOf l => memb c l
  | NoneOf l => negb (memb c l)
  end.

Inductive regex : Type :=
| Eps
| Chr (c : N)
| One (cs : charset)
| Star (cs : charset)           (* greedy star of a one-character atom *)
| Seq (r1 r2 : regex)
| Alt (r1 r2 : regex)
| WordB.                        (* \b *)

Definition Plus (cs : charset) : regex := Seq (One cs) (Star cs).

Fixpoint Str (s : jsstring) : regex :=
  match s with
  | [] => Eps
  | [c] => Chr c
  | c :: s' => Seq (Chr c) (Str s')
  end.

Fixpoint Cat (rs : list regex) : regex :=
  match rs with
  | [] => Eps
  | [r] => r
  | r :: rs' => Seq r (Cat rs')
  end.

Fixpoint AltOf (rs : list regex) : regex :=
  match rs with
  | [] => Eps
  | [r] => r
  | r :: rs' => Alt r (AltOf rs')
  end.

(** The alternatives of a group, written as in the source:
    [Words "would|will|must"]. *)
Fixpoint splitBar (s cur : jsstring) : list jsstring :=
  match s with
  | [] => [rev cur]
  | c :: s' =>
      if N.eqb c 124 then rev cur :: splitBar s' [] else splitBar s' (c :: cur)
  end.

Definition Words (ws : string) : regex :=
  AltOf (map Str (splitBar (lit ws) [])).
Arguments Words ws%_string.

Record RegExp : Type := mkRegExp {
  source : jsstring;
  ast : regex;
  ignoreCase : bool;
  global : bool
}.

(** ** The backtracking matcher

    A continuation receives the code unit before the current position (for
    [\b]) and the rest of the input, and returns the input left after the
    whole match. *)

Definition K := option N -> jsstring -> option jsstring.

Definition isWordO (o : option N) : bool :=
  match o with Some c => isWordChar c | None => false end.

Fixpoint star (p : N -> bool) (k : K) (prev : option N) (s : jsstring)
  : option jsstring :=
  match s with
  | c :: s' =>
      if p c then
        match star p k (Some c) s' with
        | Some r => Some r
        | None => k prev s
        end
      else k prev s
  | [] => k prev []
  end.

Fixpoint m (i : bool) (r : regex) (k : K) (prev : option N) (s : jsstring)
  : option jsstring :=
  match r with
  | Eps => k prev s
  | Chr c =>
      match s with
      | ch :: s' => if chr_eq i c ch then k (Some ch) s' else None
      | [] => None
      end
  | One cs =>
      match s with
      | ch :: s' => if in_cs cs ch then k (Some ch) s' else None
      | [] => None
      end
  | Star cs => star (in_cs cs) k prev s
  | Seq r1 r2 => m i r1 (fun p' s' => m i r2 k p' s') prev s
  | Alt r1 r2 =>
      match m i r1 k prev s with
      | Some x => Some x
      | None => m i r2 k prev s
      end
  | WordB =>
      if xorb (isWordO prev) (isWordO (hd_error s)) then k prev s else None
  end.

Definition accept : K := fun _ rest => Some rest.

(** Length of the match that starts exactly at the head of [s]. *)
Definition matchAt (R : RegExp) (prev : option N) (s : jsstring)
  : option nat :=
  match m (ignoreCase R) (ast R) accept prev s with
  | Some rest => Some (length s - length rest)
  | None => None
  end.

(** Leftmost match in [s], which sits at absolute index [pos]: start and
    end index. *)
Fixpoint searchFrom (R : RegExp) (prev : option N) (s : jsstring) (pos : nat)
  : option (nat * nat) :=
  match matchAt R prev s with
  | Some len => Some (pos, pos + len)
  | None =>
      match s with
      | [] => None
      | c :: s' => searchFrom R (Some c) s' (S pos)
      end
  end.

Definition prevAt (S0 : jsstring) (i : nat) : option N :=
  match i with
  | O => None
  | S j => nth_error S0 j
  end.

(** RegExpBuiltinExec from index [lastIndex]. *)
Definition exec (R : RegExp) (S0 : jsstring) (lastIndex : nat)
  : option (nat * nat) :=
  if Nat.ltb (length S0) lastIndex then None
  else searchFrom R (prevAt S0 lastIndex) (skipn lastIndex S0) lastIndex.

(** All matches of a global regex, as [String.prototype.match] with [g] and
    [matchAll] enumerate them from index 0: after a match the scan resumes
    at its end, one unit further after an empty match.  [skip] counts the
    units still covered by the previous match. *)
Fixpoint scan (R : RegExp) (prev : option N) (s : jsstring) (skip : nat)
  : list jsstring :=
  match s with
  | [] =>
      match skip with
      | O => match matchAt R prev [] with
             | Some _ => [[]]
             | None => []
             end
      | S _ => []
      end
  | c :: s' =>
      match skip with
      | S n => scan R (Some c) s' n
      | O =>
          match matchAt R prev s with
          | Some len => firstn len s :: scan R (Some c) s' (len - 1)
          | None => scan R (Some c) s' 0
          end
      end
  end.

Definition matchAll (R : RegExp) (text : jsstring) : list jsstring :=
  scan R None text 0.

(** ** String operations of the source *)

Fixpoint jsstring_eqb (a b : jsstring) : bool :=
  match a, b with
  | [], [] => true
  | x :: a', y :: b' => N.eqb x y && jsstring_eqb a' b'
  | _, _ => false
  end.

Fixpoint join (sep : jsstring) (l : list jsstring) : jsstring :=
  match l with
  | [] => []
  | [x] => x
  | x :: l' => x ++ sep ++ join sep l'
  end.

Fixpoint dropWhile (p : N -> bool) (s : jsstring) : jsstring :=
  match s with
  | c :: s' => if p c then dropWhile p s' else s
  | [] => []
  end.

Definition trim (s : jsstring) : jsstring :=
  rev (dropWhile isWhiteSpace (rev (dropWhile isWhiteSpace s))).

(** [toLowerCase], unit by unit.  Besides [A-Z], the two code units whose
    lower-case form holds an ASCII unit are written out: U+0130 (to [i]
    followed by U+0307) and U+212A KELVIN SIGN (to [k]).  The remaining case
    pairs of Unicode send units of 128 or more to units of 128 or more; the
    keywords looked up in the lowered text are ASCII, so those pairs are left
    in place. *)
Definition lowerUnit (c : N) : jsstring :=
  if isUpperAscii c then [(c + 32)%N]
  else if N.eqb c 304 then [105; 775]%N
  else if N.eqb c 8490 then [107]%N
  else [c].

Definition toLowerCase (s : jsstring) : jsstring := flat_map lowerUnit s.

Fixpoint startsWith (p s : jsstring) : bool :=
  match p, s with
  | [], _ => true
  | a :: p', b :: s' => N.eqb a b && startsWith p' s'
  | _ :: _, [] => false
  end.

Fixpoint includes (s sub : jsstring) : bool :=
  startsWith sub s ||
  match s with
  | [] => false
  | _ :: s' => includes s' sub
  end.

(** The text before and after the first occurrence of [pat] in [s]. *)
Fixpoint splitAtFirst (pat s : jsstring) : option (jsstring * jsstring) :=
  if startsWith pat s then Some ([], skipn (length pat) s)
  else
    match s with
    | [] => None
    | c :: s' =>
        match splitAtFirst pat s' with
        | Some (before, after) => Some (c :: before, after)
        | None => None
        end
    end.

(** GetSubstitution for a string pattern (no captures): [$$], [$&], [$`]
    and [$'] are expanded, every other unit is copied. *)
Fixpoint getSubstitution (matched before after template : jsstring)
  : jsstring :=
  match template with
  | [] => []
  | c :: t =>
      if N.eqb c 36 then
        match t with
        | d :: t' =>
            if N.eqb d 36 then 36%N :: getSubstitution matched before after t'
            else if N.eqb d 38 then
              matched ++ getSubstitution matched before after t'
            else if N.eqb d 96 then
              before ++ getSubstitution matched before after t'
            else if N.eqb d 39 then
              after ++ getSubstitution matched before after t'
            else c :: getSubstitution matched before after t
        | [] => [c]
        end
      else c :: getSubstitution matched before after t
  end.

(** [s.replace(pat, replacement)] with a string pattern: the first
    occurrence only. *)
Definition replace (s pat replacement : jsstring) : jsstring :=
  match splitAtFirst pat s with
  | Some (before, after) =>
      before ++ getSubstitution pat before after replacement ++ after
  | None => s
  end.

Definition substring0 (s : jsstring) (n : nat) : jsstring := firstn n s.

(** [s.split(R)] of [RegExp.prototype[@@split]]: [cur] is the piece since
    the last separator, reversed; [skip] counts the units of the separator
    still to pass. *)
Fixpoint splitLoop (R : RegExp) (prev : option N) (s cur : jsstring)
  (skip : nat) : list jsstring :=
  match s with
  | [] => [rev cur]
  | c :: s' =>
      match skip with
      | S n => splitLoop R (Some c) s' [] n
      | O =>
          match matchAt R prev s with
          | Some O =>
              match cur with
              | [] => splitLoop R (Some c) s' [c] 0
              | _ :: _ => rev cur :: splitLoop R (Some c) s' [c] 0
              end
          | Some (S n) => rev cur :: splitLoop R (Some c) s' [] n
          | None => splitLoop R (Some c) s' (c :: cur) 0
          end
      end
  end.

Definition split (R : RegExp) (s : jsstring) : list jsstring :=
  match s with
  | [] => match matchAt R None [] with
          | Some _ => []
          | None => [[]]
          end
  | _ :: _ => splitLoop R None s [] 0
  end.

Definition natToString (n : nat) : jsstring :=
  lit (NilEmpty.string_of_uint (Nat.to_uint n)).

Definition quote : jsstring := [34%N].
Definition nl : jsstring := [10%N].
Definition space : jsstring := [32%N].

(** ** Settings *)

Record ValidationRules : Type := mkRules {
  sceneEndings : bool;
  showDontTell : bool;
  dialogueNaturalness : bool;
  pacing : bool;
  emotionLabels : bool
}.

(** The [showWarnings] flag of the source is [warnings] here; the name
    [showWarnings] is the function's. *)
Record Settings : Type := mkSettings {
  enabled : bool;
  autoCorrect : bool;
  warnings : bool;
  showNoViolations : bool;
  strictMode : bool;
  validationRules : ValidationRules
}.

Definition defaultSettings : Settings :=
  mkSettings true true true false false (mkRules true true true true true).

(** Settings with strict mode on, the rest as in [defaultSettings]. *)
Definition strictSettings : Settings :=
  mkSettings true true true false true (mkRules true true true true true).

(** ** Pattern library *)

Definition gi (src : string) (r : regex) : RegExp :=
  mkRegExp (lit src) r true true.
Arguments gi src%_string r.

Definition FORBIDDEN_PATTERNS : list RegExp :=
  [ gi "one day at a time" (Str (lit "one day at a time"));
    gi "(I|we|they) (would|will|must) .*(protect|ensure|make sure)"
       (Cat [Words "I|we|they"; Chr 32;
             Words "would|will|must"; Chr 32;
             Star AnyChar;
             Words "protect|ensure|make sure"]);
    gi "even (gods|people|characters) (had to|must|need to)"
       (Cat [Str (lit "even "); Words "gods|people|characters";
             Chr 32; Words "had to|must|need to"]);
    gi "(this was|that was) .* and (I|we|they) (was|were) going to"
       (Cat [Words "this was|that was"; Chr 32; Star AnyChar;
             Str (lit " and "); Words "I|we|they"; Chr 32;
             Words "was|were"; Str (lit " going to")]);
    gi "standing (back|there) to (survey|appreciate|marvel|contemplate)"
       (Cat [Str (lit "standing "); Words "back|there";
             Str (lit " to ");
             Words "survey|appreciate|marvel|contemplate"]);
    gi "\. \w+ had to handle the basics"
       (Cat [Chr 46; Chr 32; Plus WordChars;
             Str (lit " had to handle the basics")]);
    gi "fortune cookie" (Str (lit "fortune cookie")) ].

Definition EMOTION_LABELS : list RegExp :=
  [ gi "I felt (angry|sad|happy|scared|worried|anxious|nervous|excited)"
       (Cat [Str (lit "I felt ");
             Words "angry|sad|happy|scared|worried|anxious|nervous|excited"]);
    gi "(he|she|they) (seemed|appeared|looked) (sad|happy|angry|worried|nervous)"
       (Cat [Words "he|she|they"; Chr 32;
             Words "seemed|appeared|looked"; Chr 32;
             Words "sad|happy|angry|worried|nervous"]);
    gi "I was (angry|sad|happy|scared|terrified|elated)"
       (Cat [Str (lit "I was ");
             Words "angry|sad|happy|scared|terrified|elated"]) ].

(** [Object.values(GOOD_ENDING_TYPES)], in the order of the keys
    physicalAction, dialogue, sensory, interruption. *)
Definition GOOD_ENDING_TYPES : list (list jsstring) :=
  [ map lit ["grabbed"; "reached"; "turned"; "walked"; "opened"; "closed";
             "pulled"; "pushed"; "picked up"; "set down"]%string;
    quote :: map lit ["said"; "asked"; "called"; "muttered";
                       "whispered"]%string;
    map lit ["heard"; "saw"; "felt"; "smelled"; "tasted"; "buzzed"; "rang";
             "slammed"; "creaked"]%string;
    map lit ["door opened"; "phone rang"; "alarm"; "knock"; "crash";
             "footsteps"; "voice"]%string ].

(** The sentence terminators [.], [!] and [?]. *)
Definition terminators : list N := [46; 33; 63]%N.

Definition isTerminator (c : N) : bool := memb c terminators.

Definition nonTerminator (c : N) : bool := negb (isTerminator c).

(** [/[^.!?]+[.!?]+/g] *)
Definition sentencePattern : RegExp :=
  mkRegExp (lit "[^.!?]+[.!?]+")
           (Seq (Plus (NoneOf terminators)) (Plus (OneOf terminators)))
           false true.

(** [/\s+/] *)
Definition whitespacePattern : RegExp :=
  mkRegExp (lit "\s+")
           (Plus SpaceChars)
           false false.

(** The dialogue pattern, with the [g] flag: a double quote, one or more
    units other than a double quote (group 1), a double quote. *)
Definition dialoguePattern : RegExp :=
  mkRegExp (quote ++ lit "([^" ++ quote ++ lit "]+)" ++ quote)
           (Cat [Chr 34; Plus (NoneOf [34%N]); Chr 34])
           false true.

(** [/\b(I am|we are|they are|he is|she is)\b/i] *)
Definition formalPattern : RegExp :=
  mkRegExp (lit "\b(I am|we are|they are|he is|she is)\b")
           (Cat [WordB;
                 Words "I am|we are|they are|he is|she is";
                 WordB])
           true false.

(** [/formal|lord|lady|your (majesty|highness)/i] *)
Definition exemptPattern : RegExp :=
  mkRegExp (lit "formal|lord|lady|your (majesty|highness)")
           (AltOf [Str (lit "formal"); Str (lit "lord"); Str (lit "lady");
                   Cat [Str (lit "your "); Words "majesty|highness"]])
           true false.

(** ** Violations and analysis results *)

Inductive ViolationType : Type := scene_ending | show_dont_tell | dialogue.

Inductive Severity : Type := high | medium | low.

Record Violation : Type := mkViolation {
  v_type : ViolationType;
  v_severity : Severity;
  v_pattern : option jsstring;
  v_text : jsstring;
  v_message : jsstring
}.

Record Analysis : Type := mkAnalysis {
  violations : list Violation;
  lastSentences : list jsstring;
  wordCount : nat
}.

Definition typeName (t : ViolationType) : jsstring :=
  match t with
  | scene_ending => lit "scene_ending"
  | show_dont_tell => lit "show_dont_tell"
  | dialogue => lit "dialogue"
  end.

Definition isType (t : ViolationType) (v : Violation) : bool :=
  match t, v_type v with
  | scene_ending, scene_ending => true
  | show_dont_tell, show_dont_tell => true
  | dialogue, dialogue => true
  | _, _ => false
  end.

Definition isSeverity (s : Severity) (v : Violation) : bool :=
  match s, v_severity v with
  | high, high => true
  | medium, medium => true
  | low, low => true
  | _, _ => false
  end.

(** ** The mutable state: [lastIndex] of the forbidden patterns

    The regex objects of [FORBIDDEN_PATTERNS] carry the [g] flag and are
    created once, so [test] reads and writes their [lastIndex].  The store
    maps the position of a pattern in the array to its [lastIndex].  (The
    emotion patterns are only passed to [matchAll], which works on a copy;
    the other regexes are literals evaluated at each call.) *)

Definition Store := nat -> nat.

Definition initialStore : Store := fun _ => 0.

Definition upd (st : Store) (idx v : nat) : Store :=
  fun j => if Nat.eqb j idx then v else st j.

Definition M (A : Type) : Type := Store -> A * Store.

Definition ret {A} (a : A) : M A := fun st => (a, st).

Definition bind {A B} (c : M A) (f : A -> M B) : M B :=
  fun st => let (a, st') := c st in f a st'.

Notation "x <- c ;; k" := (bind c (fun x => k))
  (at level 61, c at next level, right associativity).

(** The value a computation returns from the store [st]. *)
Definition run {A : Type} (c : M A) (st : Store) : A := fst (c st).

(** [R.test(S0)] for the regex object at position [idx]. *)
Definition test (idx : nat) (R : RegExp) (S0 : jsstring) : M bool :=
  fun st =>
    if global R then
      match exec R S0 (st idx) with
      | Some (_, e) => (true, upd st idx e)
      | None => (false, upd st idx 0)
      end
    else
      (match exec R S0 0 with Some _ => true | None => false end, st).

(** [test] on a regex literal without the [g] flag. *)
Definition testLiteral (R : RegExp) (S0 : jsstring) : bool :=
  match exec R S0 0 with Some _ => true | None => false end.

(** [FORBIDDEN_PATTERNS.some(pattern => pattern.test(s))] from position
    [idx] on: stops at the first pattern whose test succeeds. *)
Fixpoint someTest (idx : nat) (ps : list RegExp) (s : jsstring) : M bool :=
  match ps with
  | [] => ret false
  | p :: ps' =>
      b <- test idx p s ;;
      if b then ret true else someTest (S idx) ps' s
  end.

(** ** Analysis *)

Definition slice_last (A : Type) (n : nat) (l : list A) : list A :=
  match n with
  | O => l
  | S _ => skipn (length l - n) l
  end.

Definition sentencesOf (text : jsstring) : list jsstring :=
  matchAll sentencePattern text.

Definition getLastSentences (text : jsstring) (n : nat) : list jsstring :=
  slice_last n (sentencesOf text).

Definition forbiddenViolation (p : RegExp) (endingText : jsstring)
  : Violation :=
  mkViolation scene_ending high (Some (source p)) endingText
    (lit "Scene ending contains forbidden reflective/philosophical pattern").

Definition abstractViolation (endingText : jsstring) : Violation :=
  mkViolation scene_ending medium None endingText
    (lit "Scene ending lacks concrete action/dialogue/sensory detail").

(** The loop over [FORBIDDEN_PATTERNS] of [checkSceneEnding]. *)
Fixpoint checkForbidden (idx : nat) (ps : list RegExp)
  (endingText : jsstring) : M (list Violation) :=
  match ps with
  | [] => ret []
  | p :: ps' =>
      b <- test idx p endingText ;;
      rest <- checkForbidden (S idx) ps' endingText ;;
      ret (if b then forbiddenViolation p endingText :: rest else rest)
  end.

Definition hasGoodEnding (endingText : jsstring) : bool :=
  existsb (fun keywords =>
    existsb (fun keyword =>
      includes (toLowerCase endingText) (toLowerCase keyword)) keywords)
    GOOD_ENDING_TYPES.

Definition checkSceneEnding (settings : Settings)
  (lastSentences : list jsstring) : M (list Violation) :=
  let endingText := join space lastSentences in
  found <- checkForbidden 0 FORBIDDEN_PATTERNS endingText ;;
  ret (if negb (hasGoodEnding endingText) && strictMode settings
       then found ++ [abstractViolation endingText]
       else found).

Definition emotionViolation (matched : jsstring) : Violation :=
  mkViolation show_dont_tell medium None matched
    (lit "Using emotion labels instead of showing through actions/sensations").

Definition checkEmotionLabels (text : jsstring) : list Violation :=
  flat_map (fun pattern => map emotionViolation (matchAll pattern text))
           EMOTION_LABELS.

Definition dialogueViolation (speech : jsstring) : Violation :=
  mkViolation dialogue low None speech
    (lit "Dialogue may be too formal - consider using contractions").

(** Group 1 of a dialogue match: the match without its two quotes. *)
Definition group1 (match0 : jsstring) : jsstring := removelast (tl match0).

Definition checkDialogue (text : jsstring) : list Violation :=
  flat_map (fun match0 =>
    let speech := group1 match0 in
    if testLiteral formalPattern speech then
      if negb (testLiteral exemptPattern text)
      then [dialogueViolation speech] else []
    else [])
  (matchAll dialoguePattern text).

(** [analyzeMessage]; its [lines] is computed and never read. *)
Definition analyzeMessage (settings : Settings) (text : jsstring)
  : M Analysis :=
  let lastSentences := getLastSentences text 3 in
  endingViolations <-
    (if sceneEndings (validationRules settings)
     then checkSceneEnding settings lastSentences else ret []) ;;
  let emotionViolations :=
    if showDontTell (validationRules settings)
    then checkEmotionLabels text else [] in
  let dialogueViolations :=
    if dialogueNaturalness (validationRules settings)
    then checkDialogue text else [] in
  ret (mkAnalysis (endingViolations ++ emotionViolations ++ dialogueViolations)
                  lastSentences
                  (length (split whitespacePattern text))).

(** ** Correction *)

(** What the call of [generateQuietPrompt] comes to: a string, or an
    exception. *)
Inductive Response : Type :=
| Returned (corrected : jsstring)
| Threw.

Definition marker (matched : jsstring) : jsstring :=
  lit "[SHOW-DON'T-TELL: " ++ matched ++ lit "]".

(** First part of [fallbackCorrection]: scene endings.  [prunedSentences]
    is the [sentences] array after the [pop]s when the text is rebuilt from
    it, and [None] when [corrected] is left as the text. *)
Definition prunedSentences (text : jsstring) (analysis : Analysis)
  : M (option (list jsstring)) :=
  let endingViolations := filter (isType scene_ending) (violations analysis) in
  if Nat.ltb 0 (length endingViolations) then
    let sentences := sentencesOf text in
    if Nat.ltb 2 (length sentences) then
      let lastSentence := last sentences [] in
      isProblematic <- someTest 0 FORBIDDEN_PATTERNS lastSentence ;;
      if isProblematic then
        let sentences1 := removelast sentences in
        let secondLast := last sentences1 [] in
        again <- someTest 0 FORBIDDEN_PATTERNS secondLast ;;
        ret (Some (if again then removelast sentences1 else sentences1))
      else ret None
    else ret None
  else ret None.

Definition fixSceneEndings (text : jsstring) (analysis : Analysis)
  : M jsstring :=
  kept <- prunedSentences text analysis ;;
  ret (match kept with
       | Some sentences => join space sentences
       | None => text
       end).

(** Second part of [fallbackCorrection]: emotion labels. *)
Definition markEmotionLabels (corrected : jsstring) (analysis : Analysis)
  : jsstring :=
  let emotionViolations :=
    filter (isType show_dont_tell) (violations analysis) in
  fold_left (fun acc violation =>
               replace acc (v_text violation) (marker (v_text violation)))
            emotionViolations corrected.

Definition fallbackCorrection (text : jsstring) (analysis : Analysis)
  : M jsstring :=
  corrected <- fixSceneEndings text analysis ;;
  ret (markEmotionLabels corrected analysis).

Definition violationDetail (v : Violation) : jsstring :=
  lit "- " ++ typeName (v_type v) ++ lit ": " ++ v_message v ++
  match v_text v with
  | [] => []
  | _ :: _ =>
      nl ++ lit "  Problem text: " ++ quote ++ substring0 (v_text v) 100
         ++ lit "..." ++ quote
  end.

Definition correctionPrompt (text : jsstring) (analysis : Analysis)
  : jsstring :=
  lit "You are a writing assistant helping to fix storytelling guideline violations."
  ++ nl ++ nl ++ lit "ORIGINAL TEXT:" ++ nl ++ text
  ++ nl ++ nl ++ lit "VIOLATIONS FOUND:" ++ nl
  ++ join nl (map violationDetail (violations analysis))
  ++ nl ++ nl ++ lit "INSTRUCTIONS:" ++ nl
  ++ lit "1. Fix the violations while preserving the core narrative and events"
  ++ nl
  ++ lit "2. For scene endings: Replace reflective/philosophical endings with concrete action, dialogue, sensory detail, or interruption"
  ++ nl
  ++ lit "3. For show-don't-tell: Replace emotion labels with physical sensations, body language, or environmental details"
  ++ nl
  ++ lit "4. For dialogue: Make speech more natural with contractions where appropriate"
  ++ nl
  ++ lit "5. Keep the same POV, tense, and character voice"
  ++ nl
  ++ lit "6. Make minimal changes - only fix what's broken"
  ++ nl ++ nl
  ++ lit "Return ONLY the corrected text, nothing else. No explanations, no commentary.".

Definition truthy (s : jsstring) : bool :=
  match s with [] => false | _ :: _ => true end.

Definition correctMessage (generateQuietPrompt : jsstring -> Response)
  (text : jsstring) (analysis : Analysis) : M jsstring :=
  match generateQuietPrompt (correctionPrompt text analysis) with
  | Returned corrected =>
      if truthy corrected && truthy (trim corrected)
         && negb (jsstring_eqb corrected text)
      then ret (trim corrected)
      else ret text
  | Threw => fallbackCorrection text analysis
  end.

(** One message cycle in which the rewrite call throws: the analysis, then
    the fallback, on the same regex objects. *)
Definition analyzeThenFallback (settings : Settings) (text : jsstring)
  : M jsstring :=
  analysis <- analyzeMessage settings text ;;
  fallbackCorrection text analysis.

(** ** Reporting *)

Inductive ToastLevel : Type := toast_error | toast_warning | toast_info.

(** What [showWarnings] hands to its environment: a [toastr] notification
    (level, message, title, timeOut) or, without [toastr], a console
    warning (label, message). *)
Inductive Emission : Type :=
| Toast (level : ToastLevel) (message title : jsstring) (timeOut : N)
| ConsoleWarn (label message : jsstring).

Definition bucket (s : Severity) (vs : list Violation) : list Violation :=
  filter (isSeverity s) vs.

(** Code units of the bullet U+2022 and of the red, yellow and green
    circles U+1F534, U+1F7E1, U+1F7E2 (surrogate pairs). *)
Definition bullet : jsstring := [8226%N].
Definition redCircle : jsstring := [55357; 56628]%N.
Definition yellowCircle : jsstring := [55357; 57313]%N.
Definition greenCircle : jsstring := [55357; 57314]%N.

Definition itemLine (v : Violation) : jsstring :=
  lit "  " ++ bullet ++ lit " " ++ typeName (v_type v) ++ lit ": "
  ++ v_message v ++ nl.

Definition excerptLine (v : Violation) : jsstring :=
  if truthy (v_text v)
  then lit "    " ++ quote ++ substring0 (v_text v) 60 ++ lit "..." ++ quote
       ++ nl
  else [].

Definition heading (icon : jsstring) (name : string) (n : nat) : jsstring :=
  icon ++ lit " " ++ lit name ++ lit " Priority (" ++ natToString n ++ lit "):"
  ++ nl.

Definition warningMessage (vs : list Violation) : jsstring :=
  let highSeverity := bucket high vs in
  let mediumSeverity := bucket medium vs in
  let lowSeverity := bucket low vs in
  lit "Found " ++ natToString (length vs) ++ lit " guideline violation(s):"
  ++ nl ++ nl
  ++ (if Nat.ltb 0 (length highSeverity)
      then heading redCircle "High" (length highSeverity)
           ++ flat_map (fun v => itemLine v ++ excerptLine v) highSeverity
           ++ nl
      else [])
  ++ (if Nat.ltb 0 (length mediumSeverity)
      then heading yellowCircle "Medium" (length mediumSeverity)
           ++ flat_map itemLine mediumSeverity ++ nl
      else [])
  ++ (if Nat.ltb 0 (length lowSeverity)
      then heading greenCircle "Low" (length lowSeverity)
           ++ flat_map itemLine lowSeverity
      else []).

Definition showWarnings (toastrDefined : bool) (vs : list Violation)
  : option Emission :=
  match vs with
  | [] => None
  | _ :: _ =>
      let message := warningMessage vs in
      Some
        (if toastrDefined then
           if Nat.ltb 0 (length (bucket high vs))
           then Toast toast_error message (lit "Story Guardian") 10000%N
           else if Nat.ltb 0 (length (bucket medium vs))
           then Toast toast_warning message (lit "Story Guardian") 8000%N
           else Toast toast_info message (lit "Story Guardian") 6000%N
         else ConsoleWarn (lit "[Story Guardian] Violations detected:")
                          message)
  end.

(** ** What a regular expression matches

    [Matches i r prev w next]: the word [w], found after the code unit
    [prev] and before the text [next], belongs to the language of [r]
    (under the [i] flag when [i] is set).  This is the reference the
    backtracking matcher is checked against. *)

Definition lastc (prev : option N) (w : jsstring) : option N :=
  fold_left (fun _ c => Some c) w prev.

Fixpoint Matches (i : bool) (r : regex) (prev : option N) (w next : jsstring)
  : Prop :=
  match r with
  | Eps => w = []
  | Chr c => exists ch, w = [ch] /\ chr_eq i c ch = true
  | One cs => exists ch, w = [ch] /\ in_cs cs ch = true
  | Star cs => forallb (in_cs cs) w = true
  | Seq r1 r2 =>
      exists w1 w2, w = w1 ++ w2 /\
        Matches i r1 prev w1 (w2 ++ next) /\
        Matches i r2 (lastc prev w1) w2 next
  | Alt r1 r2 => Matches i r1 prev w next \/ Matches i r2 prev w next
  | WordB => w = [] /\ xorb (isWordO prev) (isWordO (hd_error next)) = true
  end.

(** [R] matches the span [w] of [text], between [pre] and [post]. *)
Definition OccursAt (R : RegExp) (text pre w post : jsstring) : Prop :=
  text = pre ++ w ++ post /\
  Matches (ignoreCase R) (ast R) (lastc None pre) w post.

(** Some forbidden pattern matches somewhere in [s]. *)
Definition Forbidden (s : jsstring) : Prop :=
  exists R pre w post, In R FORBIDDEN_PATTERNS /\ OccursAt R s pre w post.

(** The indexes of [text] at which the matcher finds a match of [R]. *)
Definition matchPositions (R : RegExp) (text : jsstring) : list nat :=
  filter (fun j =>
            match matchAt R (prevAt text j) (skipn j text) with
            | Some _ => true
            | None => false
            end)
         (seq 0 (S (length text))).

(** Can [r] match the empty word; can a word of [r] start with [c]. *)
Fixpoint nullable (r : regex) : bool :=
  match r with
  | Eps | Star _ | WordB => true
  | Chr _ | One _ => false
  | Seq r1 r2 => nullable r1 && nullable r2
  | Alt r1 r2 => nullable r1 || nullable r2
  end.

Fixpoint firstp (i : bool) (r : regex) (c : N) : bool :=
  match r with
  | Eps | WordB => false
  | Chr x => chr_eq i x c
  | One cs | Star cs => in_cs cs c
  | Seq r1 r2 => firstp i r1 c || (nullable r1 && firstp i r2 c)
  | Alt r1 r2 => firstp i r1 c || firstp i r2 c
  end.

(** A sequence that keeps the order of another one. *)
Inductive Subseq {A : Type} : list A -> list A -> Prop :=
| Subseq_nil : Subseq [] []
| Subseq_keep x l1 l2 : Subseq l1 l2 -> Subseq (x :: l1) (x :: l2)
| Subseq_drop x l1 l2 : Subseq l1 l2 -> Subseq l1 (x :: l2).

(** What [[.!?]+] leaves of [s], when [s] starts with a terminator. *)
Definition sentenceTail (s : jsstring) : option jsstring :=
  match s with
  | [] => None
  | t :: s' => if isTerminator t then Some (dropWhile isTerminator s') else None
  end.

(** ** The message cycle

    [handleMessageEvent] works on the chat array of the host and calls into
    the page.  The array holds references to message objects: the handler
    reads one reference, assigns to the [mes] of that object, and looks the
    object up again with [indexOf].  So the chat is an array of references
    and the objects they stand for; an object may sit at several indexes.
    A message object is read through [is_user] and [mes] only.  The host is
    what the handler asks of its surroundings: whether [toastr] is defined,
    whether the page has the message element and its text element for a
    [mesid], and the rewrite call.  The calls the handler makes are
    returned in order ([console.log] lines are left out).  The cycle is
    taken as one step: nothing else runs while the rewrite call is
    awaited. *)

Record ChatMessage : Type := mkMessage {
  is_user : bool;
  mes : jsstring
}.

Definition Ref := nat.

Record Chat : Type := mkChat {
  chat_array : list Ref;
  chat_object : Ref -> ChatMessage
}.

(** The argument of the event: a number (read as an array index), or
    anything else.  A number that is no integer indexes no element, like
    one out of range. *)
Inductive MessageId : Type :=
| NumberId (index : Z)
| OtherId.

Record Host : Type := mkHost {
  host_toastr : bool;
  host_messageElement : Z -> bool;
  host_mesText : Z -> bool;
  host_generateQuietPrompt : jsstring -> Response
}.

Inductive HostCall : Type :=
| SetHtml (mesid : Z) (html : jsstring)
| SaveChatDebounced
| Emit (emission : Emission)
| ToastSuccess (message title : jsstring) (timeOut : N).

(** [context.chat[messageId]], or the last element: the reference read. *)
Definition pickMessage (chat : Chat) (messageId : MessageId) : option Ref :=
  match messageId with
  | NumberId z =>
      if Z.ltb z 0 then None else nth_error (chat_array chat) (Z.to_nat z)
  | OtherId =>
      match chat_array chat with
      | [] => None
      | _ :: _ => nth_error (chat_array chat) (length (chat_array chat) - 1)
      end
  end.

(** [message.mes = correctedText] on the object [message] refers to. *)
Definition setMes (message : Ref) (correctedText : jsstring) (chat : Chat)
  : Chat :=
  mkChat (chat_array chat)
         (fun ref =>
            if Nat.eqb ref message
            then mkMessage (is_user (chat_object chat ref)) correctedText
            else chat_object chat ref).

(** [array.indexOf(message)]: the first index that holds the reference,
    -1 when none does; [k] is the index of the head of [array]. *)
Fixpoint indexOfFrom (message : Ref) (array : list Ref) (k : Z) : Z :=
  match array with
  | [] => (-1)%Z
  | ref :: rest =>
      if Nat.eqb ref message then k
      else indexOfFrom message rest (k + 1)%Z
  end.

Definition indexOf (message : Ref) (array : list Ref) : Z :=
  indexOfFrom message array 0%Z.

Definition checkMark : jsstring := [10003%N].

Definition successToast (analysis : Analysis) : HostCall :=
  ToastSuccess
    (lit "Message passed all validation checks! ("
     ++ natToString (wordCount analysis) ++ lit " words)")
    (lit "Story Guardian " ++ checkMark) 3000%N.

Definition handleMessageEvent (settings : Settings) (host : Host)
  (chat : Chat) (messageId : MessageId) : M (Chat * list HostCall) :=
  if negb (enabled settings) then ret (chat, [])
  else
    match pickMessage chat messageId with
    | None => ret (chat, [])
    | Some message =>
        if is_user (chat_object chat message) then ret (chat, [])
        else
          let messageText := mes (chat_object chat message) in
          analysis <- analyzeMessage settings messageText ;;
          if Nat.ltb 0 (length (violations analysis)) then
            corrected <-
              (if autoCorrect settings then
                 correctedText <-
                   correctMessage (host_generateQuietPrompt host)
                                  messageText analysis ;;
                 if truthy correctedText
                    && negb (jsstring_eqb correctedText messageText)
                 then
                   let mesIndex := indexOf message (chat_array chat) in
                   ret (setMes message correctedText chat,
                        (if host_messageElement host mesIndex
                            && host_mesText host mesIndex
                         then [SetHtml mesIndex correctedText] else [])
                        ++ [SaveChatDebounced])
                 else ret (chat, [])
               else ret (chat, [])) ;;
            ret (fst corrected,
                 snd corrected
                 ++ (if warnings settings then
                       match showWarnings (host_toastr host)
                                          (violations analysis) with
                       | Some emission => [Emit emission]
                       | None => []
                       end
                     else []))
          else
            ret (chat,
                 if showNoViolations settings && host_toastr host
                 then [successToast analysis] else [])
    end.

(** [context.chat] as it reads: the message at each index. *)
Definition chatMessages (chat : Chat) : list ChatMessage :=
  map (chat_object chat) (chat_array chat).

(** ** Reference notions for the further properties *)

(** The number of maximal runs of white space in [s]; [inRun] tells that
    the unit before [s] is white space. *)
Fixpoint whiteSpaceRuns (inRun : bool) (s : jsstring) : nat :=
  match s with
  | [] => 0
  | c :: s' =>
      if isWhiteSpace c
      then (if inRun then 0 else 1) + whiteSpaceRuns true s'
      else whiteSpaceRuns false s'
  end.

(** No word of [r] holds the unit [c]. *)
Fixpoint avoids (i : bool) (r : regex) (c : N) : bool :=
  match r with
  | Eps | WordB => true
  | Chr x => negb (chr_eq i x c)
  | One cs | Star cs => negb (in_cs cs c)
  | Seq r1 r2 | Alt r1 r2 => avoids i r1 c && avoids i r2 c
  end.

(** [sub] is a span of [s]. *)
Definition Contains (s sub : jsstring) : Prop :=
  exists pre post, s = pre ++ sub ++ post.

(** A sentence as the sentence pattern cuts it: one or more units that are
    no terminator, then one or more terminators. *)
Definition SentenceShape (s : jsstring) : Prop :=
  exists body ends,
    s = body ++ ends /\ body <> [] /\ ends <> [] /\
    forallb nonTerminator body = true /\ forallb isTerminator ends = true.

(** [r] has no [\b]: what it matches does not depend on the unit before. *)
Fixpoint noWordB (r : regex) : bool :=
  match r with
  | WordB => false
  | Eps | Chr _ | One _ | Star _ => true
  | Seq r1 r2 | Alt r1 r2 => noWordB r1 && noWordB r2
  end.

(** * Properties *)

(** ** The matcher against the reference *)

Lemma lastc_app prev w1 w2 :
  lastc prev (w1 ++ w2) = lastc (lastc prev w1) w2.
Proof. unfold lastc. apply fold_left_app. Qed.

Lemma star_sound p k prev s res :
  star p k prev s = Some res ->
  exists w rest,
    s = w ++ rest /\ forallb p w = true /\ k (lastc prev w) rest = Some res.
Proof.
  revert prev. induction s as [|c s IH]; intros prev H; simpl in H.
  - exists [], []. auto.
  - destruct (p c) eqn:Hp.
    + destruct (star p k (Some c) s) as [r|] eqn:Hs.
      * injection H as ->. apply IH in Hs.
        destruct Hs as (w & rest & -> & Hw & Hk).
        exists (c :: w), rest. simpl. rewrite Hp, Hw. auto.
      * exists [], (c :: s). auto.
    + exists [], (c :: s). auto.
Qed.

Lemma m_sound i r : forall k prev s res,
  m i r k prev s = Some res ->
  exists w rest,
    s = w ++ rest /\ Matches i r prev w rest /\
    k (lastc prev w) rest = Some res.
Proof.
  induction r as [|c|cs|cs|r1 IH1 r2 IH2|r1 IH1 r2 IH2|];
    intros k prev s res H; simpl in H.
  - exists [], s. simpl. auto.
  - destruct s as [|ch s]; [discriminate|].
    destruct (chr_eq i c ch) eqn:E; [|discriminate].
    exists [ch], s. simpl. eauto 6.
  - destruct s as [|ch s]; [discriminate|].
    destruct (in_cs cs ch) eqn:E; [|discriminate].
    exists [ch], s. simpl. eauto 6.
  - apply star_sound in H. destruct H as (w & rest & -> & Hw & Hk).
    exists w, rest. simpl. auto.
  - apply IH1 in H. destruct H as (w1 & rest1 & -> & M1 & H).
    apply IH2 in H. destruct H as (w2 & rest & -> & M2 & Hk).
    exists (w1 ++ w2), rest. rewrite <- app_assoc, lastc_app.
    repeat split; auto. simpl. exists w1, w2. auto.
  - destruct (m i r1 k prev s) as [x|] eqn:E.
    + injection H as ->. apply IH1 in E.
      destruct E as (w & rest & -> & M1 & Hk).
      exists w, rest. simpl. auto.
    + apply IH2 in H. destruct H as (w & rest & -> & M2 & Hk).
      exists w, rest. simpl. auto.
  - destruct (xorb (isWordO prev) (isWordO (hd_error s))) eqn:E;
      [|discriminate].
    exists [], s. simpl. auto.
Qed.

Lemma star_base p k prev s :
  k prev s <> None -> star p k prev s <> None.
Proof.
  destruct s as [|c s]; simpl; auto.
  destruct (p c); auto.
  destruct (star p k (Some c) s); auto. discriminate.
Qed.

Lemma star_complete p k w : forall prev rest,
  forallb p w = true ->
  k (lastc prev w) rest <> None ->
  star p k prev (w ++ rest) <> None.
Proof.
  induction w as [|c w IH]; intros prev rest Hw Hk.
  - apply star_base. exact Hk.
  - simpl in Hw. apply andb_true_iff in Hw. destruct Hw as [Hc Hw].
    simpl. rewrite Hc.
    specialize (IH (Some c) rest Hw Hk).
    destruct (star p k (Some c) (w ++ rest)); [discriminate|contradiction].
Qed.

Lemma m_complete i r : forall k prev w rest,
  Matches i r prev w rest ->
  k (lastc prev w) rest <> None ->
  m i r k prev (w ++ rest) <> None.
Proof.
  induction r as [|c|cs|cs|r1 IH1 r2 IH2|r1 IH1 r2 IH2|];
    intros k prev w rest HM Hk; simpl in HM.
  - subst w. exact Hk.
  - destruct HM as (ch & -> & E). simpl. rewrite E. exact Hk.
  - destruct HM as (ch & -> & E). simpl. rewrite E. exact Hk.
  - simpl. apply star_complete; assumption.
  - destruct HM as (w1 & w2 & -> & M1 & M2).
    rewrite <- app_assoc. simpl. apply IH1; [exact M1|].
    apply IH2; [exact M2|]. rewrite <- lastc_app. exact Hk.
  - simpl. destruct HM as [M1|M2].
    + specialize (IH1 k prev w rest M1 Hk).
      destruct (m i r1 k prev (w ++ rest)); [discriminate|contradiction].
    + destruct (m i r1 k prev (w ++ rest)); [discriminate|].
      apply IH2; assumption.
  - destruct HM as [-> E]. simpl. rewrite E. exact Hk.
Qed.

Lemma matchAt_sound R prev s len :
  matchAt R prev s = Some len ->
  exists w rest,
    s = w ++ rest /\ length w = len /\
    Matches (ignoreCase R) (ast R) prev w rest.
Proof.
  unfold matchAt. intros H.
  destruct (m (ignoreCase R) (ast R) accept prev s) as [rest|] eqn:E;
    [|discriminate].
  injection H as <-. apply m_sound in E.
  destruct E as (w & rest' & -> & HM & Hk).
  unfold accept in Hk. injection Hk as ->.
  exists w, rest. repeat split; auto.
  rewrite length_app. lia.
Qed.

Lemma matchAt_complete R prev w rest :
  Matches (ignoreCase R) (ast R) prev w rest ->
  matchAt R prev (w ++ rest) <> None.
Proof.
  intros HM. unfold matchAt.
  pose proof (@m_complete (ignoreCase R) (ast R) accept prev w rest HM) as H.
  destruct (m (ignoreCase R) (ast R) accept prev (w ++ rest)).
  - discriminate.
  - exfalso. apply H; [discriminate|reflexivity].
Qed.

Lemma lastc_cons prev c w : lastc prev (c :: w) = lastc (Some c) w.
Proof. reflexivity. Qed.

Lemma lastc_snoc prev w c : lastc prev (w ++ [c]) = Some c.
Proof. rewrite lastc_app. reflexivity. Qed.

Lemma prevAt_app pre s : prevAt (pre ++ s) (length pre) = lastc None pre.
Proof.
  destruct pre as [|c pre] using rev_ind; [reflexivity|].
  rewrite lastc_snoc, length_app, Nat.add_comm. simpl.
  rewrite <- app_assoc. rewrite nth_error_app2 by lia.
  rewrite Nat.sub_diag. reflexivity.
Qed.

Lemma searchFrom_sound R : forall s prev pos a b,
  searchFrom R prev s pos = Some (a, b) ->
  exists skipped w rest,
    s = skipped ++ w ++ rest /\ a = pos + length skipped /\
    b = a + length w /\
    Matches (ignoreCase R) (ast R) (lastc prev skipped) w rest.
Proof.
  induction s as [|c s IH]; intros prev pos a b H; simpl in H.
  - destruct (matchAt R prev []) as [len|] eqn:E; [|discriminate].
    injection H as <- <-. apply matchAt_sound in E.
    destruct E as (w & rest & Hs & Hl & HM).
    exists [], w, rest. simpl. repeat split; auto; lia.
  - destruct (matchAt R prev (c :: s)) as [len|] eqn:E.
    + injection H as <- <-. apply matchAt_sound in E.
      destruct E as (w & rest & Hs & Hl & HM).
      exists [], w, rest. simpl. repeat split; auto; lia.
    + apply IH in H. destruct H as (sk & w & rest & -> & -> & -> & HM).
      exists (c :: sk), w, rest. simpl. repeat split; auto; lia.
Qed.

Lemma searchFrom_complete R : forall skipped prev pos w rest,
  Matches (ignoreCase R) (ast R) (lastc prev skipped) w rest ->
  searchFrom R prev (skipped ++ w ++ rest) pos <> None.
Proof.
  induction skipped as [|c sk IH]; intros prev pos w rest HM.
  - simpl in *. apply matchAt_complete in HM.
    destruct (w ++ rest) as [|c s]; simpl;
      destruct (matchAt R prev _); try discriminate; contradiction.
  - simpl. destruct (matchAt R prev (c :: sk ++ w ++ rest));
      [discriminate|]. apply IH. exact HM.
Qed.

Lemma exec_sound R S0 li a b :
  exec R S0 li = Some (a, b) ->
  exists pre w post,
    OccursAt R S0 pre w post /\ a = length pre /\ b = a + length w /\
    li <= a.
Proof.
  unfold exec. destruct (Nat.ltb (length S0) li) eqn:E; [discriminate|].
  apply Nat.ltb_ge in E. intros H. apply searchFrom_sound in H.
  destruct H as (sk & w & rest & Hs & -> & -> & HM).
  exists (firstn li S0 ++ sk), w, rest.
  assert (Hl : length (firstn li S0) = li) by (rewrite length_firstn; lia).
  repeat split.
  - rewrite <- app_assoc, <- Hs. symmetry. apply firstn_skipn.
  - rewrite lastc_app.
    replace (lastc None (firstn li S0)) with (prevAt S0 li); [exact HM|].
    pose proof (prevAt_app (firstn li S0) (skipn li S0)) as Hp.
    rewrite firstn_skipn, Hl in Hp. exact Hp.
  - rewrite length_app. lia.
  - lia.
Qed.

Lemma exec_complete R S0 pre w post :
  OccursAt R S0 pre w post -> exec R S0 0 <> None.
Proof.
  intros [-> HM]. unfold exec. simpl.
  apply searchFrom_complete. exact HM.
Qed.

(** A successful [test], whatever [lastIndex] was, means that the pattern
    matches somewhere in the string. *)
Lemma test_true_occurs idx R s st st' :
  test idx R s st = (true, st') ->
  exists pre w post, OccursAt R s pre w post.
Proof.
  unfold test. intros H.
  destruct (global R).
  - destruct (exec R s (st idx)) as [[a b]|] eqn:E; [|discriminate].
    apply exec_sound in E. destruct E as (pre & w & post & Ho & _).
    eauto.
  - destruct (exec R s 0) as [[a b]|] eqn:E; [|discriminate].
    apply exec_sound in E. destruct E as (pre & w & post & Ho & _).
    eauto.
Qed.

Lemma someTest_true_occurs ps s : forall idx st st',
  someTest idx ps s st = (true, st') ->
  exists R pre w post, In R ps /\ OccursAt R s pre w post.
Proof.
  induction ps as [|p ps IH]; intros idx st st' H; simpl in H.
  - discriminate.
  - unfold bind in H. destruct (test idx p s st) as [b st1] eqn:E.
    destruct b.
    + apply test_true_occurs in E. destruct E as (pre & w & post & Ho).
      exists p, pre, w, post. split; [left; reflexivity|exact Ho].
    + apply IH in H. destruct H as (R & pre & w & post & Hin & Ho).
      exists R, pre, w, post. split; [right; exact Hin|exact Ho].
Qed.

(** ** Enumerating all matches *)

Lemma scan_none R : forall s prev n,
  (forall skipped rest, s = skipped ++ rest ->
     matchAt R (lastc prev skipped) rest = None) ->
  scan R prev s n = [].
Proof.
  induction s as [|c s IH]; intros prev n H.
  - destruct n; [|reflexivity]. simpl.
    pose proof (H [] [] eq_refl) as E. simpl in E. rewrite E. reflexivity.
  - assert (H' : forall skipped rest, s = skipped ++ rest ->
              matchAt R (lastc (Some c) skipped) rest = None).
    { intros sk rest ->. apply (H (c :: sk) rest). reflexivity. }
    destruct n; simpl.
    + pose proof (H [] (c :: s) eq_refl) as E. simpl in E. rewrite E.
      apply IH. exact H'.
    + apply IH. exact H'.
Qed.

Lemma scan_skip R : forall w prev s,
  scan R prev (w ++ s) (length w) = scan R (lastc prev w) s 0.
Proof.
  induction w as [|c w IH]; intros prev s; [reflexivity|].
  simpl. apply IH.
Qed.

(** A text whose only position with a match is the one after [pre], where
    the matcher takes the non-empty word [w0], has [w0] as its one match. *)
Lemma scan_single R w0 post : forall pre prev,
  w0 <> [] ->
  matchAt R (lastc prev pre) (w0 ++ post) = Some (length w0) ->
  (forall skipped rest, pre ++ w0 ++ post = skipped ++ rest ->
     matchAt R (lastc prev skipped) rest <> None ->
     length skipped = length pre) ->
  scan R prev (pre ++ w0 ++ post) 0 = [w0].
Proof.
  induction pre as [|c pre IH]; intros prev Hne Hm Ho.
  - destruct w0 as [|c w0]; [contradiction|]. simpl in *.
    rewrite Hm. simpl. rewrite Nat.sub_0_r.
    rewrite firstn_app, firstn_all, Nat.sub_diag. simpl.
    rewrite app_nil_r. f_equal.
    rewrite scan_skip. apply scan_none.
    intros sk rest ->. rewrite <- lastc_app.
    destruct (matchAt R (lastc (Some c) (w0 ++ sk)) rest) eqn:E; auto.
    exfalso.
    specialize (Ho (c :: w0 ++ sk) rest).
    simpl in Ho. rewrite <- app_assoc in Ho.
    specialize (Ho eq_refl). rewrite E in Ho.
    discriminate Ho. discriminate.
  - simpl.
    destruct (matchAt R prev (c :: pre ++ w0 ++ post)) eqn:E.
    + exfalso. specialize (Ho [] (c :: pre ++ w0 ++ post) eq_refl).
      simpl in Ho. rewrite E in Ho. discriminate Ho. discriminate.
    + apply IH; auto.
      intros sk rest Hs Hmm.
      specialize (Ho (c :: sk) rest). simpl in Ho.
      rewrite Hs in Ho. specialize (Ho eq_refl Hmm). lia.
Qed.

(** ** Failing fast on the first code unit *)

Lemma m_first i r : forall k prev c s,
  firstp i r c = false ->
  nullable r = false \/ (forall p, k p (c :: s) = None) ->
  m i r k prev (c :: s) = None.
Proof.
  induction r as [|x|cs|cs|r1 IH1 r2 IH2|r1 IH1 r2 IH2|];
    intros k prev c s Hf Hn; simpl in *.
  - destruct Hn as [Hn|Hn]; [discriminate|apply Hn].
  - rewrite Hf. reflexivity.
  - rewrite Hf. reflexivity.
  - rewrite Hf. destruct Hn as [Hn|Hn]; [discriminate|apply Hn].
  - apply orb_false_iff in Hf. destruct Hf as [Hf1 Hf2].
    apply IH1; [exact Hf1|].
    destruct (nullable r1) eqn:N1; [right|left; reflexivity].
    simpl in Hf2. intros p. apply IH2; [exact Hf2|].
    destruct Hn as [Hn|Hn]; [left; exact Hn|right; exact Hn].
  - apply orb_false_iff in Hf. destruct Hf as [Hf1 Hf2].
    rewrite IH1; [apply IH2|exact Hf1|]; auto.
    + destruct Hn as [Hn|Hn]; [left|right; exact Hn].
      apply orb_false_iff in Hn. tauto.
    + destruct Hn as [Hn|Hn]; [left|right; exact Hn].
      apply orb_false_iff in Hn. tauto.
  - destruct Hn as [Hn|Hn]; [discriminate|].
    rewrite Hn. destruct (xorb _ _); reflexivity.
Qed.

Lemma m_nil i r : forall k prev,
  nullable r = false \/ (forall p, k p [] = None) ->
  m i r k prev [] = None.
Proof.
  induction r as [|x|cs|cs|r1 IH1 r2 IH2|r1 IH1 r2 IH2|];
    intros k prev Hn; simpl in *; auto.
  - destruct Hn as [Hn|Hn]; [discriminate|apply Hn].
  - destruct Hn as [Hn|Hn]; [discriminate|apply Hn].
  - apply IH1.
    destruct (nullable r1) eqn:N1; [right|left; reflexivity].
    intros p. apply IH2.
    destruct Hn as [Hn|Hn]; [left; exact Hn|right; exact Hn].
  - rewrite IH1; [apply IH2|].
    + destruct Hn as [Hn|Hn]; [left|right; exact Hn].
      apply orb_false_iff in Hn. tauto.
    + destruct Hn as [Hn|Hn]; [left|right; exact Hn].
      apply orb_false_iff in Hn. tauto.
  - destruct Hn as [Hn|Hn]; [discriminate|].
    rewrite Hn. destruct (xorb _ _); reflexivity.
Qed.

Lemma matchAt_first R prev c s :
  nullable (ast R) = false ->
  firstp (ignoreCase R) (ast R) c = false ->
  matchAt R prev (c :: s) = None.
Proof.
  intros Hn Hf. unfold matchAt. rewrite m_first; auto.
Qed.

Lemma matchAt_nil R prev :
  nullable (ast R) = false -> matchAt R prev [] = None.
Proof.
  intros Hn. unfold matchAt. rewrite m_nil; auto.
Qed.

(** No match in a text none of whose units can start a match. *)
Lemma scan_no_first R text :
  nullable (ast R) = false ->
  forallb (fun c => negb (firstp (ignoreCase R) (ast R) c)) text = true ->
  matchAll R text = [].
Proof.
  intros Hn Hf. unfold matchAll. apply scan_none.
  intros sk rest ->. rewrite forallb_app in Hf.
  apply andb_true_iff in Hf. destruct Hf as [_ Hf].
  destruct rest as [|c rest].
  - apply matchAt_nil. exact Hn.
  - simpl in Hf. apply andb_true_iff in Hf. destruct Hf as [Hc _].
    apply matchAt_first; [exact Hn|].
    apply negb_true_iff. exact Hc.
Qed.

Lemma exec_nil R li :
  nullable (ast R) = false -> exec R [] li = None.
Proof.
  intros Hn. unfold exec. destruct li; simpl; [|reflexivity].
  rewrite matchAt_nil; auto.
Qed.

(** ** White space *)

Lemma isWhiteSpace_cases c :
  isWhiteSpace c = true -> In c whiteSpaceUnits.
Proof.
  unfold isWhiteSpace, memb. intros H.
  apply orb_true_iff in H. destruct H as [H|H].
  - apply existsb_exists in H. destruct H as (x & Hin & E).
    apply N.eqb_eq in E. subst x. simpl in Hin. simpl.
    repeat (destruct Hin as [<-|Hin]; [tauto|]). contradiction.
  - apply andb_true_iff in H. destruct H as [H1 H2].
    apply N.leb_le in H1, H2.
    assert (c = 8192 \/ c = 8193 \/ c = 8194 \/ c = 8195 \/ c = 8196 \/
            c = 8197 \/ c = 8198 \/ c = 8199 \/ c = 8200 \/ c = 8201 \/
            c = 8202)%N as Hc by lia.
    simpl. repeat (destruct Hc as [->|Hc]; [tauto|]). subst c. tauto.
Qed.

Lemma forall_whitespace (P : N -> bool) :
  forallb P whiteSpaceUnits = true ->
  forall c, isWhiteSpace c = true -> P c = true.
Proof.
  intros H c Hc. apply isWhiteSpace_cases in Hc.
  rewrite forallb_forall in H. apply H. exact Hc.
Qed.

Lemma whitespace_text (P : N -> bool) text :
  forallb P whiteSpaceUnits = true ->
  forallb isWhiteSpace text = true ->
  forallb P text = true.
Proof.
  intros H Ht. apply forallb_forall. intros c Hin.
  rewrite forallb_forall in Ht.
  apply (forall_whitespace P H). apply Ht. exact Hin.
Qed.

(** ** Sentences *)

Lemma dropWhile_split p s :
  exists pre, s = pre ++ dropWhile p s /\ forallb p pre = true.
Proof.
  induction s as [|c s IH]; simpl.
  - exists []. auto.
  - destruct (p c) eqn:E.
    + destruct IH as (pre & Hs & Hp). exists (c :: pre). simpl.
      rewrite E, Hp. rewrite <- Hs. auto.
    + exists []. auto.
Qed.

Lemma dropWhile_head p s c s' : dropWhile p s = c :: s' -> p c = false.
Proof.
  induction s as [|x s IH]; simpl; [discriminate|].
  destruct (p x) eqn:E; auto. intros H. injection H as -> _. exact E.
Qed.

Lemma dropWhile_nil p s : dropWhile p s = [] -> forallb p s = true.
Proof.
  induction s as [|x s IH]; simpl; auto.
  destruct (p x); [auto|discriminate].
Qed.

Lemma dropWhile_all p s : forallb p s = true -> dropWhile p s = [].
Proof.
  induction s as [|x s IH]; simpl; auto.
  destruct (p x); [auto|discriminate].
Qed.

Lemma skipn_app_length (a b : jsstring) :
  skipn (length (a ++ b) - length b) (a ++ b) = b.
Proof.
  rewrite length_app.
  replace (length a + length b - length b) with (length a) by lia.
  rewrite skipn_app, skipn_all, Nat.sub_diag. reflexivity.
Qed.

Lemma star_accept p : forall s prev,
  star p accept prev s = Some (dropWhile p s).
Proof.
  induction s as [|c s IH]; intros prev; simpl; [reflexivity|].
  destruct (p c); [|reflexivity]. rewrite IH. reflexivity.
Qed.

Lemma plus_terminators prev s :
  m false (Plus (OneOf terminators)) accept prev s = sentenceTail s.
Proof.
  destruct s as [|t s]; [reflexivity|].
  cbn [m Plus sentenceTail in_cs]. unfold isTerminator.
  destruct (memb t terminators); [|reflexivity].
  apply star_accept.
Qed.

Lemma star_nonTerminators : forall s prev,
  star (in_cs (NoneOf terminators))
       (fun p' s' => m false (Plus (OneOf terminators)) accept p' s') prev s
  = sentenceTail (dropWhile nonTerminator s).
Proof.
  induction s as [|c s IH]; intros prev.
  - reflexivity.
  - cbn [star dropWhile]. unfold nonTerminator at 1, isTerminator at 1.
    cbn [in_cs]. destruct (memb c terminators) eqn:E; cbn [negb].
    + apply plus_terminators.
    + rewrite IH.
      destruct (sentenceTail (dropWhile nonTerminator s)); [reflexivity|].
      rewrite plus_terminators. simpl. unfold isTerminator. rewrite E.
      reflexivity.
Qed.

Lemma sentence_matchAt prev s :
  matchAt sentencePattern prev s =
  match s with
  | [] => None
  | c :: s' =>
      if nonTerminator c then
        match sentenceTail (dropWhile nonTerminator s') with
        | Some rest => Some (length s - length rest)
        | None => None
        end
      else None
  end.
Proof.
  unfold matchAt, sentencePattern. cbn [ignoreCase ast].
  destruct s as [|c s]; [reflexivity|].
  cbn [m Plus]. unfold nonTerminator at 1, isTerminator at 1. cbn [in_cs].
  destruct (negb (memb c terminators)); [|reflexivity].
  change (fun (p' : option N) (s' : jsstring) =>
            m false (One (OneOf terminators))
              (fun (p'0 : option N) (s'0 : jsstring) =>
                 m false (Star (OneOf terminators)) accept p'0 s'0) p' s')
    with (fun (p' : option N) (s' : jsstring) =>
            m false (Plus (OneOf terminators)) accept p' s').
  rewrite star_nonTerminators. reflexivity.
Qed.

(** A text without terminators has no sentence. *)
Lemma scan_no_terminator : forall s prev n,
  forallb nonTerminator s = true -> scan sentencePattern prev s n = [].
Proof.
  intros s prev n H. apply scan_none. intros sk rest ->.
  rewrite forallb_app in H. apply andb_true_iff in H. destruct H as [_ H].
  rewrite sentence_matchAt. destruct rest as [|c rest]; [reflexivity|].
  simpl in H. apply andb_true_iff in H. destruct H as [Hc Hr].
  rewrite Hc, (dropWhile_all _ _ Hr). reflexivity.
Qed.

Lemma sentencesOf_no_terminator text :
  forallb nonTerminator text = true -> sentencesOf text = [].
Proof. apply scan_no_terminator. Qed.

Lemma scan_sentences : forall s prev n,
  n <= length s ->
  match skipn n s with [] => True | c :: _ => nonTerminator c = true end ->
  exists tail,
    skipn n s = concat (scan sentencePattern prev s n) ++ tail /\
    forallb nonTerminator tail = true.
Proof.
  induction s as [|c s IH]; intros prev n Hn Hh.
  - assert (n = 0) by (simpl in Hn; lia). subst n.
    exists []. cbn [scan skipn]. rewrite sentence_matchAt. auto.
  - destruct n as [|n].
    + cbn [skipn] in Hh. cbn [scan skipn]. rewrite sentence_matchAt, Hh.
      destruct (dropWhile nonTerminator s) as [|t d] eqn:Ed.
      * cbn [sentenceTail].
        apply dropWhile_nil in Ed.
        rewrite scan_no_terminator by exact Ed.
        exists (c :: s). simpl. rewrite Hh, Ed. auto.
      * pose proof (dropWhile_head _ _ Ed) as Ht.
        unfold nonTerminator in Ht. apply negb_false_iff in Ht.
        cbn [sentenceTail]. rewrite Ht.
        set (rest := dropWhile isTerminator d).
        set (len := length (c :: s) - length rest).
        assert (Hrest : skipn len (c :: s) = rest).
        { subst len rest.
          destruct (dropWhile_split nonTerminator s) as (p1 & H1 & _).
          destruct (dropWhile_split isTerminator d) as (p2 & H2 & _).
          rewrite Ed in H1. rewrite H2 in H1.
          replace (c :: s)
            with ((c :: p1 ++ t :: p2) ++ dropWhile isTerminator d).
          2:{ rewrite H1. simpl. rewrite <- app_assoc. reflexivity. }
          apply skipn_app_length. }
        assert (Hlen : 1 <= len <= length (c :: s)).
        { subst len. split; [|lia].
          destruct (dropWhile_split nonTerminator s) as (p1 & H1 & _).
          destruct (dropWhile_split isTerminator d) as (p2 & H2 & _).
          assert (length rest <= length d).
          { subst rest. rewrite H2 at 2. rewrite length_app. lia. }
          rewrite Ed in H1.
          assert (length s = length p1 + S (length d)).
          { rewrite H1 at 1. rewrite length_app. reflexivity. }
          cbn [length]. lia. }
        destruct len as [|len']; [lia|].
        cbn [Nat.sub]. rewrite Nat.sub_0_r.
        destruct (IH (Some c) len') as (tail & Hs & Htail).
        { simpl in Hlen. lia. }
        { cbn [skipn] in Hrest. rewrite Hrest. subst rest.
          destruct (dropWhile isTerminator d) as [|x r] eqn:Er; [exact I|].
          apply dropWhile_head in Er. unfold nonTerminator. rewrite Er.
          reflexivity. }
        exists tail. split; [|exact Htail].
        cbn [concat]. rewrite <- app_assoc, <- Hs.
        change (skipn len' s) with (skipn (S len') (c :: s)).
        symmetry. apply firstn_skipn.
    + cbn [skipn scan]. apply IH; [simpl in Hn; lia|exact Hh].
Qed.

(** The sentences are consecutive spans of the text: before the first one
    come terminators only, after the last one no terminator. *)
Lemma sentences_decompose : forall s prev,
  exists lead tail,
    s = lead ++ concat (scan sentencePattern prev s 0) ++ tail /\
    forallb isTerminator lead = true /\
    forallb nonTerminator tail = true.
Proof.
  induction s as [|c s IH]; intros prev.
  - exists [], []. cbn [scan]. rewrite sentence_matchAt. auto.
  - destruct (nonTerminator c) eqn:Ec.
    + destruct (@scan_sentences (c :: s) prev 0) as (tail & Hs & Ht).
      * simpl. lia.
      * simpl. exact Ec.
      * exists [], tail. simpl in *. auto.
    + destruct (IH (Some c)) as (lead & tail & Hs & Hl & Ht).
      exists (c :: lead), tail. cbn [scan]. rewrite sentence_matchAt, Ec.
      simpl. unfold nonTerminator in Ec. apply negb_false_iff in Ec.
      rewrite Ec, Hl, Ht. rewrite <- Hs. auto.
Qed.

(** ** The violations each check produces *)

Lemma checkForbidden_kind ps text : forall idx st,
  Forall (fun v => v_type v = scene_ending /\ v_severity v = high)
         (run (checkForbidden idx ps text) st).
Proof.
  unfold run.
  induction ps as [|p ps IH]; intros idx st; simpl.
  - constructor.
  - unfold bind. destruct (test idx p text st) as [b st1].
    specialize (IH (S idx) st1).
    destruct (checkForbidden (S idx) ps text st1) as [rest st2].
    simpl in *. destruct b; [constructor|]; auto.
Qed.

Lemma checkSceneEnding_kind settings ls st :
  Forall (fun v => v_type v = scene_ending)
         (run (checkSceneEnding settings ls) st).
Proof.
  unfold run, checkSceneEnding, bind.
  pose proof (checkForbidden_kind FORBIDDEN_PATTERNS (join space ls) 0 st)
    as H.
  unfold run in H.
  destruct (checkForbidden 0 FORBIDDEN_PATTERNS (join space ls) st)
    as [found st1].
  simpl in *.
  assert (Forall (fun v => v_type v = scene_ending) found) as H'.
  { eapply Forall_impl; [|exact H]. simpl. tauto. }
  destruct (negb (hasGoodEnding (join space ls)) && strictMode settings);
    [|exact H'].
  apply Forall_app. split; [exact H'|]. repeat constructor.
Qed.

Lemma checkEmotionLabels_kind text :
  Forall (fun v => v_type v = show_dont_tell /\ v_severity v = medium)
         (checkEmotionLabels text).
Proof.
  unfold checkEmotionLabels. apply Forall_flat_map.
  apply Forall_forall. intros R _.
  apply Forall_map. apply Forall_forall. intros w _. simpl. auto.
Qed.

Lemma checkDialogue_kind text :
  Forall (fun v => v_type v = dialogue /\ v_severity v = low)
         (checkDialogue text).
Proof.
  unfold checkDialogue. apply Forall_flat_map.
  apply Forall_forall. intros w _.
  destruct (testLiteral formalPattern (group1 w)); [|constructor].
  destruct (negb (testLiteral exemptPattern text)); repeat constructor.
Qed.

Lemma filter_none (A : Type) (f : A -> bool) l :
  Forall (fun x => f x = false) l -> filter f l = [].
Proof.
  induction 1 as [|x l Hx _ IH]; simpl; [reflexivity|].
  rewrite Hx. exact IH.
Qed.

Lemma filter_all (A : Type) (f : A -> bool) l :
  Forall (fun x => f x = true) l -> filter f l = l.
Proof.
  induction 1 as [|x l Hx _ IH]; simpl; [reflexivity|].
  rewrite Hx, IH. reflexivity.
Qed.

Lemma analyzeMessage_violations settings text st :
  violations (run (analyzeMessage settings text) st) =
  (if sceneEndings (validationRules settings)
   then run (checkSceneEnding settings (getLastSentences text 3)) st
   else [])
  ++ (if showDontTell (validationRules settings)
      then checkEmotionLabels text else [])
  ++ (if dialogueNaturalness (validationRules settings)
      then checkDialogue text else []).
Proof.
  unfold run, analyzeMessage, bind.
  destruct (sceneEndings (validationRules settings)).
  - destruct (checkSceneEnding settings (getLastSentences text 3) st).
    reflexivity.
  - reflexivity.
Qed.

Lemma analyzeMessage_lastSentences settings text st :
  lastSentences (run (analyzeMessage settings text) st) =
  getLastSentences text 3.
Proof.
  unfold run, analyzeMessage, bind.
  destruct (sceneEndings (validationRules settings)).
  - destruct (checkSceneEnding settings (getLastSentences text 3) st).
    reflexivity.
  - reflexivity.
Qed.

Lemma checkForbidden_nil ps : forall idx st,
  forallb (fun p => negb (nullable (ast p))) ps = true ->
  run (checkForbidden idx ps []) st = [].
Proof.
  unfold run.
  induction ps as [|p ps IH]; intros idx st H; simpl; [reflexivity|].
  simpl in H. apply andb_true_iff in H. destruct H as [Hp Hps].
  apply negb_true_iff in Hp.
  unfold bind, test. rewrite (exec_nil _ _ Hp).
  destruct (global p).
  - specialize (IH (S idx) (upd st idx 0) Hps).
    destruct (checkForbidden (S idx) ps [] (upd st idx 0)). simpl in *.
    exact IH.
  - rewrite (exec_nil _ 0 Hp).
    specialize (IH (S idx) st Hps).
    destruct (checkForbidden (S idx) ps [] st). simpl in *. exact IH.
Qed.

(** On an empty ending window no forbidden pattern can match, and no
    keyword is found: the only violation is the one of strict mode. *)
Lemma checkSceneEnding_nil settings st :
  run (checkSceneEnding settings []) st =
  if strictMode settings then [abstractViolation []] else [].
Proof.
  pose proof (checkForbidden_nil FORBIDDEN_PATTERNS 0 st eq_refl) as H.
  unfold run, checkSceneEnding, bind in *. cbn [join].
  destruct (checkForbidden 0 FORBIDDEN_PATTERNS [] st) as [found st1].
  simpl in H. subst found.
  replace (hasGoodEnding []) with false by (vm_compute; reflexivity).
  simpl. destruct (strictMode settings); reflexivity.
Qed.

Lemma getLastSentences_no_terminator text n :
  forallb nonTerminator text = true -> getLastSentences text n = [].
Proof.
  intros H. unfold getLastSentences.
  rewrite (sentencesOf_no_terminator _ H). destruct n; reflexivity.
Qed.

(** ** Texts without a sentence terminator *)

(** C9.  A text with no [.], [!] or [?] has an empty ending window; the
    analysis then holds no high-severity violation whatever the text says,
    and its scene-ending violations are exactly the one medium violation of
    strict mode when scene endings are checked in strict mode, and none
    otherwise. *)
Theorem no_terminator_empty_window settings text st :
  forallb nonTerminator text = true ->
  let analysis := run (analyzeMessage settings text) st in
  lastSentences analysis = [] /\
  filter (isSeverity high) (violations analysis) = [] /\
  filter (isType scene_ending) (violations analysis) =
    (if sceneEndings (validationRules settings) && strictMode settings
     then [mkViolation scene_ending medium None []
             (lit "Scene ending lacks concrete action/dialogue/sensory detail")]
     else []).
Proof.
  intros H analysis. subst analysis.
  rewrite analyzeMessage_lastSentences, analyzeMessage_violations.
  rewrite (getLastSentences_no_terminator _ 3 H), checkSceneEnding_nil.
  split; [reflexivity|].
  assert (He : forall f, (forall v, v_severity v = medium -> f v = false) ->
            filter f (if showDontTell (validationRules settings)
                      then checkEmotionLabels text else []) = []).
  { intros f Hf. destruct (showDontTell _); [|reflexivity].
    apply filter_none. eapply Forall_impl; [|apply checkEmotionLabels_kind].
    simpl. intros v [_ Hv]. auto. }
  assert (Hd : forall f, (forall v, v_type v = dialogue ->
                                    v_severity v = low -> f v = false) ->
            filter f (if dialogueNaturalness (validationRules settings)
                      then checkDialogue text else []) = []).
  { intros f Hf. destruct (dialogueNaturalness _); [|reflexivity].
    apply filter_none. eapply Forall_impl; [|apply checkDialogue_kind].
    simpl. intros v [Hv1 Hv2]. auto. }
  split.
  - rewrite !filter_app, He, Hd.
    + destruct (sceneEndings _), (strictMode settings); reflexivity.
    + intros v _ Hv. unfold isSeverity. rewrite Hv. reflexivity.
    + intros v Hv. unfold isSeverity. rewrite Hv. reflexivity.
  - rewrite !filter_app.
    assert (Hemo : filter (isType scene_ending)
              (if showDontTell (validationRules settings)
               then checkEmotionLabels text else []) = []).
    { destruct (showDontTell _); [|reflexivity].
      apply filter_none. eapply Forall_impl; [|apply checkEmotionLabels_kind].
      simpl. intros v [Hv _]. unfold isType. rewrite Hv. reflexivity. }
    rewrite Hemo, Hd.
    + destruct (sceneEndings _), (strictMode settings); reflexivity.
    + intros v Hv _. unfold isType. rewrite Hv. reflexivity.
Qed.

Lemma no_terminator_empty_window_witness :
  forallb nonTerminator (lit "She walked to the door") = true /\
  let analysis :=
    run (analyzeMessage strictSettings (lit "She walked to the door"))
        initialStore in
  lastSentences analysis = [] /\
  filter (isSeverity high) (violations analysis) = [] /\
  filter (isType scene_ending) (violations analysis) =
    [mkViolation scene_ending medium None []
       (lit "Scene ending lacks concrete action/dialogue/sensory detail")].
Proof.
  split; [reflexivity|].
  apply (no_terminator_empty_window strictSettings
           (lit "She walked to the door") initialStore).
  reflexivity.
Defined.

(** ** Empty and white-space texts *)

Lemma whitespace_no_match R text :
  nullable (ast R) = false ->
  forallb (fun c => negb (firstp (ignoreCase R) (ast R) c)) whiteSpaceUnits
    = true ->
  forallb isWhiteSpace text = true ->
  matchAll R text = [].
Proof.
  intros Hn Hf Ht. apply scan_no_first; [exact Hn|].
  apply whitespace_text; assumption.
Qed.

Lemma checkEmotionLabels_whitespace text :
  forallb isWhiteSpace text = true -> checkEmotionLabels text = [].
Proof.
  intros Ht. unfold checkEmotionLabels, EMOTION_LABELS. cbn [flat_map].
  rewrite !whitespace_no_match; auto.
Qed.

Lemma checkDialogue_whitespace text :
  forallb isWhiteSpace text = true -> checkDialogue text = [].
Proof.
  intros Ht. unfold checkDialogue.
  rewrite whitespace_no_match; auto.
Qed.

(** C2, as the code has it.  On an empty or white-space-only text the
    analysis returns, with an empty ending window; it holds no violation
    unless scene endings are checked in strict mode, where the empty window
    is flagged with the one medium scene-ending violation. *)
Theorem whitespace_only_analysis settings text st :
  forallb isWhiteSpace text = true ->
  let analysis := run (analyzeMessage settings text) st in
  lastSentences analysis = [] /\
  violations analysis =
    (if sceneEndings (validationRules settings) && strictMode settings
     then [mkViolation scene_ending medium None []
             (lit "Scene ending lacks concrete action/dialogue/sensory detail")]
     else []).
Proof.
  intros Ht analysis. subst analysis.
  assert (Hn : forallb nonTerminator text = true).
  { apply whitespace_text; [reflexivity|exact Ht]. }
  rewrite analyzeMessage_lastSentences, analyzeMessage_violations.
  rewrite (getLastSentences_no_terminator _ 3 Hn), checkSceneEnding_nil.
  rewrite (checkEmotionLabels_whitespace _ Ht).
  rewrite (checkDialogue_whitespace _ Ht).
  split; [reflexivity|].
  destruct (sceneEndings _), (strictMode settings), (showDontTell _),
    (dialogueNaturalness _); reflexivity.
Qed.

Lemma whitespace_only_analysis_witness :
  forallb isWhiteSpace (lit "   ") = true /\
  let analysis :=
    run (analyzeMessage defaultSettings (lit "   ")) initialStore in
  lastSentences analysis = [] /\ violations analysis = [].
Proof.
  split; [reflexivity|].
  apply (whitespace_only_analysis defaultSettings (lit "   ") initialStore).
  reflexivity.
Defined.

(** C2 does not hold as stated: in strict mode the white-space-only text of
    three spaces gets one violation, and its [wordCount] is 2; the empty
    text has [wordCount] 1. *)
Lemma whitespace_only_strict_violation :
  forallb isWhiteSpace (lit "   ") = true /\
  length (violations
            (run (analyzeMessage strictSettings (lit "   ")) initialStore))
    = 1 /\
  wordCount (run (analyzeMessage strictSettings (lit "   ")) initialStore)
    = 2 /\
  wordCount (run (analyzeMessage defaultSettings []) initialStore) = 1.
Proof. vm_compute. auto. Qed.

(** ** The corrector *)

Lemma jsstring_eqb_refl s : jsstring_eqb s s = true.
Proof.
  induction s as [|c s IH]; simpl; [reflexivity|].
  rewrite N.eqb_refl, IH. reflexivity.
Qed.





(** C1, as the code has it.  When the rewrite call returns an empty string,
    a string of white space only or the text itself, [correctMessage]
    returns the original text and runs no fallback (no regex object is
    touched); the fallback runs when, and only when, the call throws. *)
Theorem correctMessage_keeps_original generateQuietPrompt text analysis st :
  (forall corrected,
     generateQuietPrompt (correctionPrompt text analysis) = Returned corrected ->
     corrected = [] \/ trim corrected = [] \/ corrected = text ->
     correctMessage generateQuietPrompt text analysis st = (text, st)) /\
  (generateQuietPrompt (correctionPrompt text analysis) = Threw ->
   correctMessage generateQuietPrompt text analysis st
   = fallbackCorrection text analysis st) /\
  (forall corrected,
     generateQuietPrompt (correctionPrompt text analysis) = Returned corrected ->
     correctMessage generateQuietPrompt text analysis st = (text, st) \/
     correctMessage generateQuietPrompt text analysis st
     = (trim corrected, st)).
Proof.
  unfold correctMessage. repeat split.
  - intros corrected -> H.
    destruct H as [->|[H| ->]].
    + reflexivity.
    + rewrite H. simpl. rewrite andb_false_r. reflexivity.
    + rewrite jsstring_eqb_refl. simpl. rewrite andb_false_r. reflexivity.
  - intros ->. reflexivity.
  - intros corrected ->.
    destruct (truthy corrected && truthy (trim corrected)
              && negb (jsstring_eqb corrected text)); auto.
Qed.

Lemma correctMessage_keeps_original_witness :
  let text := lit "I felt angry." in
  let analysis := run (analyzeMessage defaultSettings text) initialStore in
  correctMessage (fun _ => Returned []) text analysis initialStore
  = (text, initialStore).
Proof.
  intros text analysis.
  apply (proj1 (correctMessage_keeps_original
                  (fun _ => Returned []) text analysis initialStore)
               [] eq_refl).
  left. reflexivity.
Defined.

(** C1 does not hold as stated: on a text with a violation and a rewrite
    call that returns the empty string, or the text itself,
    [correctMessage] returns the text, where the fallback would have
    marked the emotion label. *)
Lemma correctMessage_empty_response_no_fallback :
  let text := lit "I felt angry." in
  let analysis := run (analyzeMessage defaultSettings text) initialStore in
  violations analysis <> [] /\
  run (correctMessage (fun _ => Returned []) text analysis) initialStore
    = text /\
  run (correctMessage (fun _ => Returned text) text analysis) initialStore
    = text /\
  run (fallbackCorrection text analysis) initialStore
    = lit "[SHOW-DON'T-TELL: I felt angry]." /\
  run (correctMessage (fun _ => Returned []) text analysis) initialStore
    <> run (fallbackCorrection text analysis) initialStore.
Proof.
  vm_compute. repeat split; try reflexivity; discriminate.
Qed.

(** ** Repeated analysis *)

(** C3 fails on the code.  Two analyses of the same text in a row, under
    the same settings: the first reports the forbidden ending, the second
    reports nothing, because [test] left [lastIndex] of the first pattern
    at 17. *)
Theorem analyzeMessage_twice_differs :
  let text := lit "one day at a time." in
  let (first, st1) := analyzeMessage defaultSettings text initialStore in
  let (second, st2) := analyzeMessage defaultSettings text st1 in
  map v_severity (violations first) = [high] /\
  map v_text (violations first) = [text] /\
  st1 0 = 17 /\
  violations second = [] /\
  st2 0 = 0.
Proof. vm_compute. auto. Qed.

(** ** Marking emotion labels *)

(** One [replace] with the marker of a label that has no [$]: the first
    occurrence of the label is wrapped, the text before and after it is
    untouched and the length grows by the 19 units of the wrapper. *)
Lemma startsWith_split pat : forall s,
  startsWith pat s = true -> s = pat ++ skipn (length pat) s.
Proof.
  induction pat as [|a pat IH]; intros [|b s] H; simpl in *;
    try discriminate; auto.
  apply andb_true_iff in H. destruct H as [E H].
  apply N.eqb_eq in E. subst b. f_equal. apply IH. exact H.
Qed.

Lemma splitAtFirst_sound pat : forall s before after,
  splitAtFirst pat s = Some (before, after) -> s = before ++ pat ++ after.
Proof.
  induction s as [|c s IH]; intros before after H.
  - simpl in H. destruct (startsWith pat []) eqn:E; [|discriminate].
    injection H as <- <-. apply startsWith_split in E. exact E.
  - cbn [splitAtFirst] in H.
    destruct (startsWith pat (c :: s)) eqn:E.
    + injection H as <- <-. apply startsWith_split in E. exact E.
    + destruct (splitAtFirst pat s) as [[b a]|] eqn:Es; [|discriminate].
      injection H as <- <-. rewrite (IH b a eq_refl). reflexivity.
Qed.

Lemma getSubstitution_plain matched before after : forall template,
  forallb (fun c => negb (N.eqb c 36)) template = true ->
  getSubstitution matched before after template = template.
Proof.
  induction template as [|c t IH]; intros H; [reflexivity|].
  simpl in H. apply andb_true_iff in H. destruct H as [Hc Ht].
  apply negb_true_iff in Hc. cbn [getSubstitution]. rewrite Hc.
  f_equal. apply IH. exact Ht.
Qed.

Lemma replace_marks_once s label before after :
  splitAtFirst label s = Some (before, after) ->
  forallb (fun c => negb (N.eqb c 36)) label = true ->
  s = before ++ label ++ after /\
  replace s label (marker label) = before ++ marker label ++ after /\
  length (replace s label (marker label)) = length s + 19.
Proof.
  intros Hs Hl. pose proof (splitAtFirst_sound _ _ Hs) as E.
  split; [exact E|].
  assert (R : replace s label (marker label)
              = before ++ marker label ++ after).
  { unfold replace. rewrite Hs. f_equal. f_equal.
    apply getSubstitution_plain. unfold marker.
    rewrite !forallb_app, Hl. reflexivity. }
  split; [exact R|].
  rewrite R, E. unfold marker. rewrite !length_app. simpl. lia.
Qed.

(** C4 fails on the code.  With the same label twice in the text, the
    second [replace] hits the label inside the marker just inserted: the
    first occurrence is wrapped twice and the second is left unmarked. *)
Theorem fallback_marks_inside_marker :
  run (analyzeThenFallback defaultSettings
         (lit "I felt angry. I felt angry.")) initialStore
  = lit "[SHOW-DON'T-TELL: [SHOW-DON'T-TELL: I felt angry]]. I felt angry.".
Proof. vm_compute. reflexivity. Qed.

(** ** Reporting *)

Lemma filter_Subseq (A : Type) (f : A -> bool) l : Subseq (filter f l) l.
Proof.
  induction l as [|x l IH]; simpl; [constructor|].
  destruct (f x); constructor; exact IH.
Qed.

Lemma bucket_lengths vs :
  length (bucket high vs) + length (bucket medium vs)
  + length (bucket low vs) = length vs.
Proof.
  unfold bucket, isSeverity. induction vs as [|v vs IH]; [reflexivity|].
  simpl. destruct (v_severity v); simpl; lia.
Qed.

Lemma bucket_permutation vs :
  Permutation (bucket high vs ++ bucket medium vs ++ bucket low vs) vs.
Proof.
  unfold bucket, isSeverity. induction vs as [|v vs IH]; [constructor|].
  simpl. destruct (v_severity v); simpl.
  - constructor. exact IH.
  - apply Permutation_sym, Permutation_cons_app, Permutation_sym. exact IH.
  - rewrite app_assoc.
    apply Permutation_sym, Permutation_cons_app, Permutation_sym.
    rewrite <- app_assoc. exact IH.
Qed.

Lemma bucket_In s vs x :
  In x (bucket s vs) <-> In x vs /\ v_severity x = s.
Proof.
  unfold bucket. rewrite filter_In. unfold isSeverity.
  destruct s, (v_severity x); intuition discriminate.
Qed.

(** C8.  [showWarnings] emits nothing for the empty list.  For a non-empty
    list it emits one notification, built from three buckets: the high, the
    medium and the low violations of the input, each in the order of the
    input, every violation in exactly one of them.  The message prints the
    total and, for each bucket that is not empty, its count followed by one
    line per violation of the bucket in that order; the three counts add up
    to the total printed.  The kind of notification follows the first
    bucket that is not empty. *)
Theorem showWarnings_buckets toastrDefined :
  showWarnings toastrDefined [] = None /\
  forall v vs,
    let all := v :: vs in
    exists highSeverity mediumSeverity lowSeverity,
      (forall x, In x highSeverity <-> In x all /\ v_severity x = high) /\
      (forall x, In x mediumSeverity <-> In x all /\ v_severity x = medium) /\
      (forall x, In x lowSeverity <-> In x all /\ v_severity x = low) /\
      Subseq highSeverity all /\ Subseq mediumSeverity all /\
      Subseq lowSeverity all /\
      Permutation (highSeverity ++ mediumSeverity ++ lowSeverity) all /\
      length highSeverity + length mediumSeverity + length lowSeverity
      = length all /\
      let line := fun x =>
        lit "  " ++ bullet ++ lit " " ++ typeName (v_type x) ++ lit ": "
        ++ v_message x ++ nl in
      let excerpt := fun x =>
        if truthy (v_text x)
        then lit "    " ++ quote ++ firstn 60 (v_text x) ++ lit "..." ++ quote
             ++ nl
        else [] in
      let message :=
        lit "Found "
        ++ natToString (length highSeverity + length mediumSeverity
                        + length lowSeverity)
        ++ lit " guideline violation(s):" ++ nl ++ nl
        ++ match highSeverity with
           | [] => []
           | _ :: _ =>
               redCircle ++ lit " High Priority ("
               ++ natToString (length highSeverity) ++ lit "):" ++ nl
               ++ flat_map (fun x => line x ++ excerpt x) highSeverity ++ nl
           end
        ++ match mediumSeverity with
           | [] => []
           | _ :: _ =>
               yellowCircle ++ lit " Medium Priority ("
               ++ natToString (length mediumSeverity) ++ lit "):" ++ nl
               ++ flat_map line mediumSeverity ++ nl
           end
        ++ match lowSeverity with
           | [] => []
           | _ :: _ =>
               greenCircle ++ lit " Low Priority ("
               ++ natToString (length lowSeverity) ++ lit "):" ++ nl
               ++ flat_map line lowSeverity
           end in
      showWarnings toastrDefined all =
      Some (if toastrDefined then
              match highSeverity, mediumSeverity with
              | _ :: _, _ =>
                  Toast toast_error message (lit "Story Guardian") 10000%N
              | [], _ :: _ =>
                  Toast toast_warning message (lit "Story Guardian") 8000%N
              | [], [] =>
                  Toast toast_info message (lit "Story Guardian") 6000%N
              end
            else ConsoleWarn (lit "[Story Guardian] Violations detected:")
                             message).
Proof.
  split; [reflexivity|]. intros v vs all.
  exists (bucket high all), (bucket medium all), (bucket low all).
  split; [intros x; apply bucket_In|].
  split; [intros x; apply bucket_In|].
  split; [intros x; apply bucket_In|].
  split; [apply filter_Subseq|].
  split; [apply filter_Subseq|].
  split; [apply filter_Subseq|].
  split; [apply bucket_permutation|].
  split; [apply bucket_lengths|].
  cbv zeta. rewrite bucket_lengths.
  unfold showWarnings, warningMessage, all. cbv zeta.
  destruct (bucket high (v :: vs)) as [|h hs];
    destruct (bucket medium (v :: vs)) as [|m0 ms];
    destruct (bucket low (v :: vs)) as [|l0 ls];
    destruct toastrDefined; cbn [length Nat.ltb Nat.leb]; cbv iota;
    unfold heading; rewrite <- ?app_assoc; reflexivity.
Qed.

(** ** Dropping sentences in the fallback *)

Lemma run_bind (A B : Type) (c : M A) (f : A -> M B) st :
  run (bind c f) st = run (f (run c st)) (snd (c st)).
Proof. unfold run, bind. destruct (c st). reflexivity. Qed.

Lemma removelast_firstn_pred (A : Type) (l : list A) :
  removelast l = firstn (length l - 1) l.
Proof.
  rewrite removelast_firstn_len. f_equal. lia.
Qed.

Lemma removelast2_firstn (A : Type) (l : list A) :
  removelast (removelast l) = firstn (length l - 2) l.
Proof.
  rewrite (removelast_firstn_pred l) at 1.
  rewrite removelast_firstn_pred, length_firstn, firstn_firstn.
  f_equal. lia.
Qed.

Lemma prunedSentences_cases text analysis st kept :
  run (prunedSentences text analysis) st = Some kept ->
  2 < length (sentencesOf text) /\
  Forbidden (last (sentencesOf text) []) /\
  (kept = removelast (sentencesOf text) \/
   kept = removelast (removelast (sentencesOf text)) /\
   Forbidden (last (removelast (sentencesOf text)) [])).
Proof.
  unfold run, prunedSentences, bind, ret.
  destruct (Nat.ltb 0 _); [|discriminate].
  destruct (Nat.ltb 2 (length (sentencesOf text))) eqn:E; [|discriminate].
  apply Nat.ltb_lt in E.
  destruct (someTest 0 FORBIDDEN_PATTERNS (last (sentencesOf text) []) st)
    as [b st1] eqn:E1.
  destruct b; [|discriminate].
  apply someTest_true_occurs in E1.
  destruct (someTest 0 FORBIDDEN_PATTERNS
              (last (removelast (sentencesOf text)) []) st1)
    as [b2 st2] eqn:E2.
  simpl. intros H. injection H as <-.
  split; [exact E|]. split.
  - destruct E1 as (R & pre & w & post & Hin & Ho).
    exists R, pre, w, post. auto.
  - destruct b2; [right|left; reflexivity].
    split; [reflexivity|].
    apply someTest_true_occurs in E2.
    destruct E2 as (R & pre & w & post & Hin & Ho).
    exists R, pre, w, post. auto.
Qed.

Lemma prunedSentences_short text analysis st :
  length (sentencesOf text) <= 2 ->
  run (prunedSentences text analysis) st = None.
Proof.
  intros H. unfold run, prunedSentences, ret.
  destruct (Nat.ltb 0 _); [|reflexivity].
  apply Nat.ltb_ge in H. rewrite H. reflexivity.
Qed.

Lemma fixSceneEndings_run text analysis st :
  run (fixSceneEndings text analysis) st =
  match run (prunedSentences text analysis) st with
  | Some kept => join space kept
  | None => text
  end.
Proof.
  unfold fixSceneEndings. rewrite run_bind. reflexivity.
Qed.

(** C5.  The scene-ending part of the fallback either leaves the text as it
    is or rebuilds it from the sentences without the last one or the last
    two.  It drops the last sentence only when there are more than two
    sentences and a forbidden pattern matches in that sentence, and the one
    before it only when a forbidden pattern matches in that one too.  With
    two sentences or fewer nothing is dropped. *)
Theorem fallback_removes_at_most_two text analysis st :
  let sentences := sentencesOf text in
  match run (prunedSentences text analysis) st with
  | None => run (fixSceneEndings text analysis) st = text
  | Some kept =>
      run (fixSceneEndings text analysis) st = join space kept /\
      2 < length sentences /\
      Forbidden (last sentences []) /\
      (kept = firstn (length sentences - 1) sentences \/
       kept = firstn (length sentences - 2) sentences /\
       Forbidden (last (firstn (length sentences - 1) sentences) []))
  end /\
  (length sentences <= 2 ->
   run (prunedSentences text analysis) st = None /\
   run (fixSceneEndings text analysis) st = text).
Proof.
  intros sentences. split.
  - rewrite fixSceneEndings_run.
    destruct (run (prunedSentences text analysis) st) as [kept|] eqn:E;
      [|reflexivity].
    apply prunedSentences_cases in E. fold sentences in E.
    destruct E as (Hlen & Hlast & Hkept).
    rewrite removelast2_firstn, removelast_firstn_pred in Hkept. auto.
  - intros H. rewrite fixSceneEndings_run.
    rewrite (prunedSentences_short text analysis st H). auto.
Qed.

Lemma fallback_removes_at_most_two_witness :
  let text := lit "A. B." in
  let analysis := run (analyzeMessage strictSettings text) initialStore in
  length (sentencesOf text) <= 2 /\
  run (prunedSentences text analysis) initialStore = None /\
  run (fixSceneEndings text analysis) initialStore = text.
Proof.
  intros text analysis.
  assert (H : length (sentencesOf text) <= 2) by (vm_compute; lia).
  split; [exact H|].
  exact (proj2 (fallback_removes_at_most_two text analysis initialStore) H).
Defined.

(** The two removals do happen: one sentence, and two. *)
Example fallback_drops_one :
  let text := lit "A. B. One day at a time." in
  let analysis := run (analyzeMessage defaultSettings text) initialStore in
  run (prunedSentences text analysis) initialStore
  = Some [lit "A."; lit " B."].
Proof. vm_compute. reflexivity. Qed.

Example fallback_drops_two :
  let text := lit "A. B. It was a fortune cookie. One day at a time." in
  let analysis := run (analyzeMessage defaultSettings text) initialStore in
  run (prunedSentences text analysis) initialStore
  = Some [lit "A."; lit " B."].
Proof. vm_compute. reflexivity. Qed.

(** C10, as the code has it.  When the fallback drops a sentence, what it
    returns for the scene ending is the kept sentences with one space put
    between consecutive ones.  The kept sentences are the first sentences
    of the text, each a verbatim span of it, one right after the other:
    the white space that followed a terminator, newlines included, is the
    start of the next sentence and is kept; the space of the join comes on
    top of it. *)
Theorem fallback_join_adds_space text analysis st kept :
  run (prunedSentences text analysis) st = Some kept ->
  run (fixSceneEndings text analysis) st = join space kept /\
  kept = firstn (length kept) (sentencesOf text) /\
  length kept < length (sentencesOf text) /\
  exists lead dropped,
    text = lead ++ concat kept ++ dropped /\
    forallb isTerminator lead = true.
Proof.
  intros H. split.
  { rewrite fixSceneEndings_run, H. reflexivity. }
  apply prunedSentences_cases in H.
  destruct H as (Hlen & _ & Hkept).
  rewrite removelast2_firstn, removelast_firstn_pred in Hkept.
  assert (exists k, k < length (sentencesOf text) /\
                    kept = firstn k (sentencesOf text)) as (k & Hk & ->).
  { destruct Hkept as [->|[-> _]]; eexists; (split; [|reflexivity]); lia. }
  rewrite length_firstn, Nat.min_l by lia.
  split; [reflexivity|]. split; [exact Hk|].
  destruct (sentences_decompose text None) as (lead & tail & Ht & Hl & _).
  fold (matchAll sentencePattern text) in Ht. fold (sentencesOf text) in Ht.
  exists lead, (concat (skipn k (sentencesOf text)) ++ tail).
  split; [|exact Hl].
  rewrite (app_assoc (concat (firstn k (sentencesOf text)))).
  rewrite <- concat_app, firstn_skipn. exact Ht.
Qed.

Lemma fallback_join_adds_space_witness :
  let text := lit "A.  B. One day at a time." in
  let analysis := run (analyzeMessage defaultSettings text) initialStore in
  let kept := [lit "A."; lit "  B."] in
  run (prunedSentences text analysis) initialStore = Some kept /\
  run (fixSceneEndings text analysis) initialStore = lit "A.   B." /\
  kept = firstn (length kept) (sentencesOf text) /\
  length kept < length (sentencesOf text) /\
  exists lead dropped,
    text = lead ++ concat kept ++ dropped /\
    forallb isTerminator lead = true.
Proof.
  intros text analysis kept.
  assert (H : run (prunedSentences text analysis) initialStore = Some kept)
    by (vm_compute; reflexivity).
  split; [exact H|].
  exact (fallback_join_adds_space text analysis initialStore H).
Defined.

(** C10 does not hold as stated.  In one message cycle on a text whose
    second sentence starts with a paragraph break, the fallback drops the
    last sentence and the paragraph break is still there, after the space
    of the join. *)
Lemma fallback_keeps_paragraph_break :
  let text := lit "One day at a time." ++ nl ++ nl
              ++ lit "B. one day at a time and one day at a time." in
  let (analysis, st1) := analyzeMessage defaultSettings text initialStore in
  run (prunedSentences text analysis) st1
    = Some [lit "One day at a time."; nl ++ nl ++ lit "B."] /\
  run (fallbackCorrection text analysis) st1
    = lit "One day at a time. " ++ nl ++ nl ++ lit "B." /\
  run (fallbackCorrection text analysis) st1
    <> lit "One day at a time. B.".
Proof. vm_compute. repeat split; discriminate. Qed.

(** ** One emotion label *)

Lemma app_inv_length (A : Type) (a c b d : list A) :
  a ++ b = c ++ d -> length a = length c -> a = c /\ b = d.
Proof.
  revert c. induction a as [|x a IH]; intros [|y c] H Hl; simpl in *;
    try discriminate; auto.
  injection H as -> H. injection Hl as Hl.
  destruct (IH c H Hl) as [-> ->]. auto.
Qed.

Lemma matchAt_occurs R text skipped rest :
  text = skipped ++ rest ->
  matchAt R (lastc None skipped) rest <> None ->
  exists w post, OccursAt R text skipped w post.
Proof.
  intros -> H.
  destruct (matchAt R (lastc None skipped) rest) as [len|] eqn:E;
    [|contradiction].
  apply matchAt_sound in E. destruct E as (w & post & -> & _ & HM).
  exists w, post. split; [reflexivity|exact HM].
Qed.

(** A span matched by [R] starts at an index at which the matcher finds a
    match. *)
Lemma occurs_matchPositions R text pre w post :
  OccursAt R text pre w post -> In (length pre) (matchPositions R text).
Proof.
  intros [-> HM]. unfold matchPositions. apply filter_In. split.
  - apply in_seq. rewrite !length_app. lia.
  - rewrite prevAt_app, skipn_app, skipn_all, Nat.sub_diag. simpl.
    apply matchAt_complete in HM.
    destruct (matchAt R (lastc None pre) (w ++ post));
      [reflexivity|contradiction].
Qed.

Lemma matchAll_elsewhere R text pre label post :
  text = pre ++ label ++ post ->
  (forall pre' w' post',
     OccursAt R text pre' w' post' -> length pre' = length pre) ->
  (forall prev, matchAt R prev (label ++ post) = None) ->
  matchAll R text = [].
Proof.
  intros Ht Ho Hm. unfold matchAll. apply scan_none.
  intros sk rest Hs.
  destruct (matchAt R (lastc None sk) rest) eqn:E; [|reflexivity].
  exfalso.
  destruct (@matchAt_occurs R text sk rest Hs) as (w & post' & Hocc).
  { rewrite E. discriminate. }
  apply Ho in Hocc. rewrite Ht in Hs.
  destruct (app_inv_length _ _ _ _ Hs (eq_sym Hocc)) as [<- <-].
  rewrite Hm in E. discriminate.
Qed.

(** C7.  A text that holds [I felt angry], and in which no emotion-label
    pattern matches at any other place, gets exactly one show-don't-tell
    violation when that check is on: of medium severity, with the text
    [I felt angry]. *)
Theorem single_emotion_label settings text pre post st :
  showDontTell (validationRules settings) = true ->
  text = pre ++ lit "I felt angry" ++ post ->
  (forall R pre' w' post',
     In R EMOTION_LABELS -> OccursAt R text pre' w' post' ->
     length pre' = length pre) ->
  filter (isType show_dont_tell)
         (violations (run (analyzeMessage settings text) st))
  = [mkViolation show_dont_tell medium None (lit "I felt angry")
       (lit "Using emotion labels instead of showing through actions/sensations")].
Proof.
  intros Hon Ht Ho.
  rewrite analyzeMessage_violations, Hon, !filter_app.
  assert (H1 : filter (isType show_dont_tell)
                 (if sceneEndings (validationRules settings)
                  then run (checkSceneEnding settings
                              (getLastSentences text 3)) st
                  else []) = []).
  { destruct (sceneEndings _); [|reflexivity].
    apply filter_none. eapply Forall_impl; [|apply checkSceneEnding_kind].
    simpl. intros v Hv. unfold isType. rewrite Hv. reflexivity. }
  assert (H3 : filter (isType show_dont_tell)
                 (if dialogueNaturalness (validationRules settings)
                  then checkDialogue text else []) = []).
  { destruct (dialogueNaturalness _); [|reflexivity].
    apply filter_none. eapply Forall_impl; [|apply checkDialogue_kind].
    simpl. intros v [Hv _]. unfold isType. rewrite Hv. reflexivity. }
  rewrite H1, H3, app_nil_r. cbn [app].
  rewrite filter_all.
  2:{ eapply Forall_impl; [|apply checkEmotionLabels_kind].
      simpl. intros v [Hv _]. unfold isType. rewrite Hv. reflexivity. }
  unfold checkEmotionLabels, EMOTION_LABELS. cbn [flat_map].
  match goal with
  | |- map _ (matchAll ?R1 _) ++ map _ (matchAll ?R2 _)
       ++ map _ (matchAll ?R3 _) ++ [] = _ =>
      assert (E1 : matchAll R1 text = [lit "I felt angry"]);
      [|assert (E2 : matchAll R2 text = []);
        [|assert (E3 : matchAll R3 text = [])]]
  end.
  - unfold matchAll. rewrite Ht. apply scan_single.
    + discriminate.
    + unfold matchAt.
      match goal with
      | |- match ?X with _ => _ end = _ =>
          replace X with (Some post) by (vm_compute; reflexivity)
      end.
      rewrite length_app.
      replace (length (lit "I felt angry") + length post - length post)
        with (length (lit "I felt angry")) by lia.
      reflexivity.
    + intros sk rest Hs Hm. rewrite <- Ht in Hs.
      destruct (@matchAt_occurs _ _ _ _ Hs Hm) as (w & post' & Hocc).
      eapply Ho; [|exact Hocc]. left. reflexivity.
  - apply (@matchAll_elsewhere _ text pre (lit "I felt angry") post Ht).
    + intros pre' w' post' Hocc. eapply Ho; [|exact Hocc].
      right. left. reflexivity.
    + intros prev. vm_compute. reflexivity.
  - apply (@matchAll_elsewhere _ text pre (lit "I felt angry") post Ht).
    + intros pre' w' post' Hocc. eapply Ho; [|exact Hocc].
      right. right. left. reflexivity.
    + intros prev. vm_compute. reflexivity.
  - rewrite E1, E2, E3. reflexivity.
Qed.

Lemma single_emotion_label_witness :
  let text := lit "Then I felt angry." in
  showDontTell (validationRules defaultSettings) = true /\
  text = lit "Then " ++ lit "I felt angry" ++ lit "." /\
  (forall R pre' w' post',
     In R EMOTION_LABELS -> OccursAt R text pre' w' post' ->
     length pre' = length (lit "Then ")) /\
  filter (isType show_dont_tell)
         (violations (run (analyzeMessage defaultSettings text) initialStore))
  = [mkViolation show_dont_tell medium None (lit "I felt angry")
       (lit "Using emotion labels instead of showing through actions/sensations")].
Proof.
  intros text.
  assert (Ho : forall R pre' w' post',
             In R EMOTION_LABELS -> OccursAt R text pre' w' post' ->
             length pre' = length (lit "Then ")).
  { intros R pre' w' post' Hin Hocc.
    apply occurs_matchPositions in Hocc.
    remember (length pre') as n eqn:Hn. clear Hn.
    destruct Hin as [<-|[<-|[<-|[]]]]; vm_compute in Hocc.
    - destruct Hocc as [<-|[]]. reflexivity.
    - destruct Hocc.
    - destruct Hocc. }
  split; [reflexivity|]. split; [reflexivity|]. split; [exact Ho|].
  exact (@single_emotion_label defaultSettings text (lit "Then ") (lit ".")
           initialStore eq_refl eq_refl Ho).
Defined.

(** * Further properties *)

(** ** Every enumerated match is a match, and a match is never missed *)

Lemma scan_sound R w : forall s prev n,
  In w (scan R prev s n) ->
  exists pre post,
    s = pre ++ w ++ post /\ n <= length pre /\
    Matches (ignoreCase R) (ast R) (lastc prev pre) w post.
Proof.
  induction s as [|c s IH]; intros prev n H.
  - destruct n; [|contradiction]. simpl in H.
    destruct (matchAt R prev []) as [len|] eqn:E; [|contradiction].
    destruct H as [<-|[]]. apply matchAt_sound in E.
    destruct E as (w' & rest & Hs & _ & HM).
    symmetry in Hs. apply app_eq_nil in Hs. destruct Hs as [-> ->].
    exists [], []. simpl. auto.
  - destruct n as [|n]; cbn [scan] in H.
    + destruct (matchAt R prev (c :: s)) as [len|] eqn:E.
      * destruct H as [<-|H].
        -- apply matchAt_sound in E.
           destruct E as (w' & rest & Hs & Hl & HM).
           exists [], rest. rewrite Hs, <- Hl.
           rewrite firstn_app, firstn_all, Nat.sub_diag. simpl.
           rewrite app_nil_r. auto.
        -- apply IH in H. destruct H as (pre & post & -> & _ & HM).
           exists (c :: pre), post. simpl. repeat split; auto; lia.
      * apply IH in H. destruct H as (pre & post & -> & _ & HM).
        exists (c :: pre), post. simpl. repeat split; auto; lia.
    + apply IH in H. destruct H as (pre & post & -> & Hn & HM).
      exists (c :: pre), post. simpl. repeat split; auto; lia.
Qed.

Lemma matchAll_sound R text w :
  In w (matchAll R text) -> exists pre post, OccursAt R text pre w post.
Proof.
  intros H. apply scan_sound in H. destruct H as (pre & post & Hs & _ & HM).
  exists pre, post. split; assumption.
Qed.

Lemma scan_complete R w post : forall pre prev,
  Matches (ignoreCase R) (ast R) (lastc prev pre) w post ->
  scan R prev (pre ++ w ++ post) 0 <> [].
Proof.
  induction pre as [|c pre IH]; intros prev HM.
  - simpl in *. apply matchAt_complete in HM.
    destruct (w ++ post) as [|c s]; simpl;
      destruct (matchAt R prev _); try discriminate; contradiction.
  - simpl. destruct (matchAt R prev (c :: pre ++ w ++ post)).
    + discriminate.
    + apply IH. exact HM.
Qed.

Lemma matchAll_complete R text pre w post :
  OccursAt R text pre w post -> matchAll R text <> [].
Proof.
  intros [-> HM]. apply scan_complete. exact HM.
Qed.

Lemma avoids_sound i c r : forall prev w next,
  avoids i r c = true -> Matches i r prev w next -> ~ In c w.
Proof.
  induction r as [|x|cs|cs|r1 IH1 r2 IH2|r1 IH1 r2 IH2|];
    intros prev w next Ha HM Hin; simpl in *.
  - subst w. contradiction.
  - destruct HM as (ch & -> & E). destruct Hin as [->|[]].
    rewrite E in Ha. discriminate.
  - destruct HM as (ch & -> & E). destruct Hin as [->|[]].
    rewrite E in Ha. discriminate.
  - rewrite forallb_forall in HM. apply HM in Hin.
    rewrite Hin in Ha. discriminate.
  - apply andb_true_iff in Ha. destruct Ha as [Ha1 Ha2].
    destruct HM as (w1 & w2 & -> & M1 & M2).
    apply in_app_or in Hin. destruct Hin as [Hin|Hin].
    + exact (IH1 _ _ _ Ha1 M1 Hin).
    + exact (IH2 _ _ _ Ha2 M2 Hin).
  - apply andb_true_iff in Ha. destruct Ha as [Ha1 Ha2].
    destruct HM as [M1|M2].
    + exact (IH1 _ _ _ Ha1 M1 Hin).
    + exact (IH2 _ _ _ Ha2 M2 Hin).
  - destruct HM as [-> _]. contradiction.
Qed.

(** ** The sentence extractor *)

Lemma sentence_shape prev w post :
  Matches false (ast sentencePattern) prev w post -> SentenceShape w.
Proof.
  cbn [ast sentencePattern Plus Matches].
  intros (w1 & w2 & -> & (a & b & -> & (ch & -> & Ha) & Hb)
          & (d & e & -> & (t & -> & Hd) & He)).
  exists ([ch] ++ b), ([t] ++ e). repeat split.
  - discriminate.
  - discriminate.
  - cbn [app forallb]. apply andb_true_iff. split; [exact Ha|exact Hb].
  - cbn [app forallb]. apply andb_true_iff. split; [exact Hd|exact He].
Qed.

(** X1.  The sentences of a text are consecutive spans of it, each made of
    non-terminators followed by terminators; the text before the first
    sentence holds terminators only, and the text after the last one, which
    is in no sentence, holds none. *)
Theorem sentences_partition text :
  Forall SentenceShape (sentencesOf text) /\
  exists lead tail,
    text = lead ++ concat (sentencesOf text) ++ tail /\
    forallb isTerminator lead = true /\
    forallb nonTerminator tail = true.
Proof.
  split.
  - apply Forall_forall. intros w Hin.
    apply matchAll_sound in Hin. destruct Hin as (pre & post & _ & HM).
    exact (sentence_shape HM).
  - exact (sentences_decompose text None).
Qed.

Lemma slice_last_suffix (A : Type) n (l : list A) :
  exists earlier,
    l = earlier ++ slice_last n l /\
    length (slice_last n l) = (if Nat.eqb n 0 then length l
                               else Nat.min n (length l)).
Proof.
  destruct n as [|n].
  - exists []. auto.
  - exists (firstn (length l - S n) l). cbn [slice_last Nat.eqb].
    split; [symmetry; apply firstn_skipn|].
    rewrite length_skipn. lia.
Qed.

(** X2.  The ending window of an analysis holds the last three sentences
    of the text, all of them when the text has fewer: never more than
    three, in the order of the text. *)
Theorem lastSentences_window settings text st :
  let window := lastSentences (run (analyzeMessage settings text) st) in
  length window = Nat.min 3 (length (sentencesOf text)) /\
  exists earlier, sentencesOf text = earlier ++ window.
Proof.
  intros window. subst window. rewrite analyzeMessage_lastSentences.
  unfold getLastSentences.
  destruct (slice_last_suffix 3 (sentencesOf text)) as (earlier & H1 & H2).
  split; [exact H2|]. exists earlier. exact H1.
Qed.

(** ** What each check reports *)

Lemma testLiteral_iff R s :
  testLiteral R s = true <-> exists pre w post, OccursAt R s pre w post.
Proof.
  unfold testLiteral. split.
  - destruct (exec R s 0) as [[a b]|] eqn:E; [|discriminate].
    intros _. apply exec_sound in E.
    destruct E as (pre & w & post & Ho & _). eauto.
  - intros (pre & w & post & Ho). apply exec_complete in Ho.
    destruct (exec R s 0); [reflexivity|contradiction].
Qed.

Lemma filter_by_type t t0 (l : list Violation) :
  Forall (fun v => v_type v = t0) l ->
  filter (isType t) l = if isType t (mkViolation t0 high None [] [])
                        then l else [].
Proof.
  intros H.
  destruct (isType t (mkViolation t0 high None [] [])) eqn:E.
  - apply filter_all. eapply Forall_impl; [|exact H].
    simpl. intros v Hv. unfold isType in *. simpl in E. rewrite Hv. exact E.
  - apply filter_none. eapply Forall_impl; [|exact H].
    simpl. intros v Hv. unfold isType in *. simpl in E. rewrite Hv. exact E.
Qed.

Lemma violations_by_type settings text st t :
  filter (isType t) (violations (run (analyzeMessage settings text) st)) =
  match t with
  | scene_ending =>
      if sceneEndings (validationRules settings)
      then run (checkSceneEnding settings (getLastSentences text 3)) st
      else []
  | show_dont_tell =>
      if showDontTell (validationRules settings)
      then checkEmotionLabels text else []
  | dialogue =>
      if dialogueNaturalness (validationRules settings)
      then checkDialogue text else []
  end.
Proof.
  rewrite analyzeMessage_violations, !filter_app.
  rewrite (@filter_by_type t scene_ending).
  2:{ destruct (sceneEndings _); [apply checkSceneEnding_kind|constructor]. }
  rewrite (@filter_by_type t show_dont_tell).
  2:{ destruct (showDontTell _); [|constructor].
      eapply Forall_impl; [|apply checkEmotionLabels_kind]. simpl. tauto. }
  rewrite (@filter_by_type t dialogue).
  2:{ destruct (dialogueNaturalness _); [|constructor].
      eapply Forall_impl; [|apply checkDialogue_kind]. simpl. tauto. }
  destruct t; simpl; rewrite ?app_nil_r; reflexivity.
Qed.

Lemma checkEmotionLabels_In text v :
  In v (checkEmotionLabels text) <->
  exists R w, In R EMOTION_LABELS /\ In w (matchAll R text) /\
              v = emotionViolation w.
Proof.
  unfold checkEmotionLabels. rewrite in_flat_map. split.
  - intros (R & HR & Hv). apply in_map_iff in Hv.
    destruct Hv as (w & <- & Hw). eauto.
  - intros (R & w & HR & Hw & ->). exists R. split; [exact HR|].
    apply in_map. exact Hw.
Qed.

(** X3.  With the show-don't-tell check on, the analysis reports a
    show-don't-tell violation exactly when some emotion-label pattern
    matches somewhere in the text, and the text of every such violation is
    a span of the analysed text that an emotion-label pattern matches. *)
Theorem emotion_labels_reported settings text st :
  showDontTell (validationRules settings) = true ->
  let found :=
    filter (isType show_dont_tell)
           (violations (run (analyzeMessage settings text) st)) in
  (forall v, In v found ->
     v_severity v = medium /\
     exists R pre post,
       In R EMOTION_LABELS /\ OccursAt R text pre (v_text v) post) /\
  (found <> [] <->
   exists R pre w post, In R EMOTION_LABELS /\ OccursAt R text pre w post).
Proof.
  intros Hon found. subst found.
  rewrite violations_by_type, Hon. split.
  - intros v Hv. apply checkEmotionLabels_In in Hv.
    destruct Hv as (R & w & HR & Hw & ->).
    split; [reflexivity|].
    apply matchAll_sound in Hw. destruct Hw as (pre & post & Ho).
    exists R, pre, post. auto.
  - split.
    + intros Hne.
      destruct (checkEmotionLabels text) as [|v l] eqn:E; [contradiction|].
      assert (Hv : In v (checkEmotionLabels text)) by (rewrite E; left; auto).
      apply checkEmotionLabels_In in Hv.
      destruct Hv as (R & w & HR & Hw & _).
      apply matchAll_sound in Hw. destruct Hw as (pre & post & Ho).
      exists R, pre, w, post. auto.
    + intros (R & pre & w & post & HR & Ho) Hnil.
      apply matchAll_complete in Ho.
      destruct (matchAll R text) as [|w0 l] eqn:E; [contradiction|].
      assert (Hin : In (emotionViolation w0) (checkEmotionLabels text)).
      { apply checkEmotionLabels_In. exists R, w0. rewrite E.
        repeat split; auto. left. reflexivity. }
      rewrite Hnil in Hin. contradiction.
Qed.

Lemma emotion_labels_reported_witness :
  let text := lit "She seemed sad and I was terrified." in
  showDontTell (validationRules defaultSettings) = true /\
  let found :=
    filter (isType show_dont_tell)
           (violations (run (analyzeMessage defaultSettings text)
                            initialStore)) in
  map v_text found = [lit "She seemed sad"; lit "I was terrified"] /\
  (found <> [] <->
   exists R pre w post, In R EMOTION_LABELS /\ OccursAt R text pre w post).
Proof.
  intros text. split; [reflexivity|]. intros found.
  split; [reflexivity|].
  exact (proj2 (@emotion_labels_reported defaultSettings text initialStore
                  eq_refl)).
Defined.

Lemma checkForbidden_In ps e v : forall idx st,
  In v (run (checkForbidden idx ps e) st) ->
  exists R, In R ps /\ v = forbiddenViolation R e /\
            exists pre w post, OccursAt R e pre w post.
Proof.
  unfold run.
  induction ps as [|p ps IH]; intros idx st H; simpl in H.
  - contradiction.
  - unfold bind in H. destruct (test idx p e st) as [b st1] eqn:E.
    specialize (IH (S idx) st1).
    destruct (checkForbidden (S idx) ps e st1) as [rest st2].
    simpl in *.
    assert (Hrest : In v rest ->
              exists R, In R (p :: ps) /\ v = forbiddenViolation R e /\
                        exists pre w post, OccursAt R e pre w post).
    { intros Hin. destruct (IH Hin) as (R & HR & Hv & Ho).
      exists R. split; [right; exact HR|]. auto. }
    destruct b; [|auto].
    destruct H as [<-|H]; [|auto].
    exists p. split; [left; reflexivity|]. split; [reflexivity|].
    exact (test_true_occurs _ _ _ _ E).
Qed.

Lemma checkSceneEnding_In settings ls st v :
  In v (run (checkSceneEnding settings ls) st) ->
  (exists R, In R FORBIDDEN_PATTERNS /\
             v = forbiddenViolation R (join space ls) /\
             exists pre w post, OccursAt R (join space ls) pre w post) \/
  (v = abstractViolation (join space ls) /\ strictMode settings = true /\
   hasGoodEnding (join space ls) = false).
Proof.
  unfold run, checkSceneEnding, bind.
  pose proof (@checkForbidden_In FORBIDDEN_PATTERNS (join space ls) v 0 st)
    as H.
  unfold run in H.
  destruct (checkForbidden 0 FORBIDDEN_PATTERNS (join space ls) st)
    as [found st1].
  simpl in *.
  destruct (hasGoodEnding (join space ls)); simpl; [auto|].
  destruct (strictMode settings); [|auto].
  intros Hin. apply in_app_or in Hin. destruct Hin as [Hin|[<-|[]]]; auto.
Qed.

(** X4.  The violations of an analysis come in the order scene ending,
    show-don't-tell, dialogue, and only from checks that are switched on.
    A scene-ending violation carries the joined ending window as its text;
    it is high with the source of a forbidden pattern that does match that
    text, or medium without a pattern and then strict mode is on.  A
    show-don't-tell violation is medium, a dialogue violation is low, both
    without a pattern. *)
Theorem analysis_classification settings text st :
  let analysis := run (analyzeMessage settings text) st in
  violations analysis =
    filter (isType scene_ending) (violations analysis)
    ++ filter (isType show_dont_tell) (violations analysis)
    ++ filter (isType dialogue) (violations analysis) /\
  forall v, In v (violations analysis) ->
    match v_type v with
    | scene_ending =>
        sceneEndings (validationRules settings) = true /\
        v_text v = join space (lastSentences analysis) /\
        ((v_severity v = high /\
          exists R, In R FORBIDDEN_PATTERNS /\
                    v_pattern v = Some (source R) /\
                    exists pre w post, OccursAt R (v_text v) pre w post) \/
         (v_severity v = medium /\ v_pattern v = None /\
          strictMode settings = true))
    | show_dont_tell =>
        showDontTell (validationRules settings) = true /\
        v_severity v = medium /\ v_pattern v = None
    | dialogue =>
        dialogueNaturalness (validationRules settings) = true /\
        v_severity v = low /\ v_pattern v = None
    end.
Proof.
  intros analysis. subst analysis. split.
  - rewrite !violations_by_type. apply analyzeMessage_violations.
  - intros v Hin.
    rewrite analyzeMessage_lastSentences.
    rewrite analyzeMessage_violations in Hin.
    apply in_app_or in Hin. destruct Hin as [Hin|Hin];
      [|apply in_app_or in Hin; destruct Hin as [Hin|Hin]].
    + destruct (sceneEndings (validationRules settings)); [|contradiction].
      apply checkSceneEnding_In in Hin.
      destruct Hin as [(R & HR & -> & Ho)|(-> & Hs & _)]; simpl.
      * split; [reflexivity|]. split; [reflexivity|]. left.
        split; [reflexivity|]. exists R. auto.
      * split; [reflexivity|]. split; [reflexivity|]. right. auto.
    + destruct (showDontTell (validationRules settings)); [|contradiction].
      apply checkEmotionLabels_In in Hin.
      destruct Hin as (R & w & _ & _ & ->). simpl. auto.
    + destruct (dialogueNaturalness (validationRules settings));
        [|contradiction].
      unfold checkDialogue in Hin. apply in_flat_map in Hin.
      destruct Hin as (w & _ & Hin).
      destruct (testLiteral formalPattern (group1 w)); [|contradiction].
      destruct (negb (testLiteral exemptPattern text)); [|contradiction].
      destruct Hin as [<-|[]]. simpl. auto.
Qed.

(** ** Dialogue *)

Lemma dialogue_match prev w post :
  Matches false (ast dialoguePattern) prev w post ->
  exists speech,
    w = quote ++ speech ++ quote /\ speech <> [] /\ ~ In 34%N speech /\
    group1 w = speech.
Proof.
  cbn [ast dialoguePattern Cat Plus Matches].
  intros (w1 & w2 & -> & (q1 & -> & E1)
          & (w3 & w4 & -> & (a & b & -> & (ch & -> & Hc) & Hb)
             & (q2 & -> & E2))).
  apply N.eqb_eq in E1, E2. subst q1 q2.
  exists ([ch] ++ b). split; [reflexivity|]. split; [discriminate|]. split.
  - intros Hin.
    assert (H : forallb (in_cs (NoneOf [34%N])) ([ch] ++ b) = true).
    { simpl. rewrite Hb. simpl in Hc. rewrite Hc. reflexivity. }
    rewrite forallb_forall in H. apply H in Hin. discriminate Hin.
  - unfold group1. cbn [app tl]. apply (removelast_last (ch :: b) 34%N).
Qed.

Lemma checkDialogue_In text v :
  In v (checkDialogue text) ->
  v = dialogueViolation (v_text v) /\
  testLiteral exemptPattern text = false /\
  testLiteral formalPattern (v_text v) = true /\
  exists pre post,
    text = pre ++ quote ++ v_text v ++ quote ++ post /\
    v_text v <> [] /\ ~ In 34%N (v_text v).
Proof.
  unfold checkDialogue. intros Hin. apply in_flat_map in Hin.
  destruct Hin as (w & Hw & Hin).
  destruct (testLiteral formalPattern (group1 w)) eqn:Ef; [|contradiction].
  destruct (testLiteral exemptPattern text) eqn:Ee; [contradiction|].
  destruct Hin as [<-|[]]. cbn [v_text dialogueViolation].
  split; [reflexivity|]. split; [reflexivity|]. split; [exact Ef|].
  apply matchAll_sound in Hw. destruct Hw as (pre & post & -> & HM).
  apply dialogue_match in HM.
  destruct HM as (speech & -> & Hne & Hq & ->).
  exists pre, post. rewrite <- !app_assoc. auto.
Qed.

(** X5.  With the dialogue check on, the text of every dialogue violation
    is the inside of a double-quoted span of the analysed text: not empty,
    without a double quote, and with a formal construction in it.  No
    dialogue violation is reported when an exemption cue ([formal], [lord],
    [lady], [your majesty], [your highness], in any case) occurs anywhere
    in the text, inside a quotation or not, nor when the text has no
    double quote. *)
Theorem dialogue_violations settings text st :
  dialogueNaturalness (validationRules settings) = true ->
  let found :=
    filter (isType dialogue)
           (violations (run (analyzeMessage settings text) st)) in
  (forall v, In v found ->
     v_severity v = low /\
     (exists pre post,
        text = pre ++ quote ++ v_text v ++ quote ++ post) /\
     v_text v <> [] /\ ~ In 34%N (v_text v) /\
     exists pre w post, OccursAt formalPattern (v_text v) pre w post) /\
  ((exists pre w post, OccursAt exemptPattern text pre w post) ->
   found = []) /\
  (~ In 34%N text -> found = []).
Proof.
  intros Hon found. subst found. rewrite violations_by_type, Hon.
  split; [|split].
  - intros v Hin. apply checkDialogue_In in Hin.
    destruct Hin as (Hv & _ & Hf & (pre & post & Ht & Hne & Hq)).
    split; [rewrite Hv; reflexivity|].
    split; [exists pre, post; exact Ht|].
    split; [exact Hne|]. split; [exact Hq|].
    apply testLiteral_iff. exact Hf.
  - intros Hex. apply testLiteral_iff in Hex.
    destruct (checkDialogue text) as [|v l] eqn:E; [reflexivity|].
    assert (Hin : In v (checkDialogue text)) by (rewrite E; left; auto).
    apply checkDialogue_In in Hin. destruct Hin as (_ & He & _).
    rewrite Hex in He. discriminate.
  - intros Hq.
    destruct (checkDialogue text) as [|v l] eqn:E; [reflexivity|].
    assert (Hin : In v (checkDialogue text)) by (rewrite E; left; auto).
    apply checkDialogue_In in Hin.
    destruct Hin as (_ & _ & _ & (pre & post & Ht & _)).
    exfalso. apply Hq. rewrite Ht. apply in_or_app. right. left.
    reflexivity.
Qed.

Lemma dialogue_violations_witness :
  let text := [34%N] ++ lit "I am here" ++ [34%N] ++ lit ", the lord said." in
  dialogueNaturalness (validationRules defaultSettings) = true /\
  (exists pre w post, OccursAt exemptPattern text pre w post) /\
  filter (isType dialogue)
         (violations (run (analyzeMessage defaultSettings text) initialStore))
  = [].
Proof.
  intros text.
  assert (He : exists pre w post, OccursAt exemptPattern text pre w post).
  { apply testLiteral_iff. reflexivity. }
  split; [reflexivity|]. split; [exact He|].
  exact (proj1 (proj2 (@dialogue_violations defaultSettings text
                         initialStore eq_refl)) He).
Defined.

(** ** The forbidden patterns and their [lastIndex] *)

Lemma exec_complete_from R s pre w post li :
  OccursAt R s pre w post -> li <= length pre -> exec R s li <> None.
Proof.
  intros [-> HM] Hli. unfold exec.
  assert (Hlen : Nat.ltb (length (pre ++ w ++ post)) li = false).
  { apply Nat.ltb_ge. rewrite length_app. lia. }
  rewrite Hlen.
  rewrite skipn_app.
  replace (li - length pre) with 0 by lia. cbn [skipn].
  apply searchFrom_complete.
  replace (prevAt (pre ++ w ++ post) li) with (lastc None (firstn li pre)).
  - rewrite <- lastc_app, firstn_skipn. exact HM.
  - rewrite <- (firstn_skipn li pre) at 2. rewrite <- app_assoc.
    pose proof (prevAt_app (firstn li pre) (skipn li pre ++ w ++ post)) as H.
    rewrite length_firstn, Nat.min_l in H by exact Hli.
    symmetry. exact H.
Qed.

Lemma exec_iff R s li :
  exec R s li <> None <->
  exists pre w post, OccursAt R s pre w post /\ li <= length pre.
Proof.
  split.
  - destruct (exec R s li) as [[a b]|] eqn:E; [|contradiction].
    intros _. apply exec_sound in E.
    destruct E as (pre & w & post & Ho & -> & _ & Hli). eauto.
  - intros (pre & w & post & Ho & Hli).
    exact (exec_complete_from Ho Hli).
Qed.

Lemma exec_end_bound R s li a b :
  exec R s li = Some (a, b) -> b <= length s.
Proof.
  intros E. apply exec_sound in E.
  destruct E as (pre & w & post & [-> _] & -> & -> & _).
  rewrite !length_app. lia.
Qed.

Lemma upd_same st idx v : upd st idx v idx = v.
Proof. unfold upd. rewrite Nat.eqb_refl. reflexivity. Qed.

Lemma upd_other st idx v j : j <> idx -> upd st idx v j = st j.
Proof.
  intros H. unfold upd. apply Nat.eqb_neq in H. rewrite H. reflexivity.
Qed.

Lemma test_global idx R s st :
  global R = true ->
  test idx R s st =
  match exec R s (st idx) with
  | Some (_, e) => (true, upd st idx e)
  | None => (false, upd st idx 0)
  end.
Proof. intros H. unfold test. rewrite H. reflexivity. Qed.

Lemma checkForbidden_cons idx p ps e st :
  checkForbidden idx (p :: ps) e st =
  let (b, st1) := test idx p e st in
  let (rest, st2) := checkForbidden (S idx) ps e st1 in
  (if b then forbiddenViolation p e :: rest else rest, st2).
Proof. reflexivity. Qed.

Lemma checkForbidden_outside ps e : forall idx st j,
  j < idx \/ idx + length ps <= j ->
  snd (checkForbidden idx ps e st) j = st j.
Proof.
  induction ps as [|p ps IH]; intros idx st j Hj; [reflexivity|].
  rewrite checkForbidden_cons.
  destruct (test idx p e st) as [b st1] eqn:E.
  specialize (IH (S idx) st1 j).
  destruct (checkForbidden (S idx) ps e st1) as [rest st2].
  cbn [snd] in *. simpl in Hj.
  rewrite IH by lia.
  unfold test in E.
  destruct (global p).
  - destruct (exec p e (st idx)) as [[a b']|]; injection E as _ <-;
      apply upd_other; lia.
  - injection E as _ <-. reflexivity.
Qed.

Lemma checkForbidden_store ps e : forall idx st k R,
  forallb global ps = true ->
  nth_error ps k = Some R ->
  snd (checkForbidden idx ps e st) (idx + k) =
  match exec R e (st (idx + k)) with
  | Some (_, b) => b
  | None => 0
  end.
Proof.
  induction ps as [|p ps IH]; intros idx st k R Hg Hk.
  - destruct k; discriminate.
  - simpl in Hg. apply andb_true_iff in Hg. destruct Hg as [Hp Hg].
    rewrite checkForbidden_cons, (@test_global _ _ _ _ Hp).
    destruct k as [|k]; simpl in Hk.
    + injection Hk as ->. rewrite Nat.add_0_r.
      destruct (exec R e (st idx)) as [[a b]|].
      * pose proof (@checkForbidden_outside ps e (S idx) (upd st idx b) idx)
          as H.
        destruct (checkForbidden (S idx) ps e (upd st idx b)).
        cbn [snd] in *. rewrite H by lia. apply upd_same.
      * pose proof (@checkForbidden_outside ps e (S idx) (upd st idx 0) idx)
          as H.
        destruct (checkForbidden (S idx) ps e (upd st idx 0)).
        cbn [snd] in *. rewrite H by lia. apply upd_same.
    + replace (idx + S k) with (S idx + k) by lia.
      destruct (exec p e (st idx)) as [[a b]|].
      * pose proof (IH (S idx) (upd st idx b) k R Hg Hk) as H.
        destruct (checkForbidden (S idx) ps e (upd st idx b)).
        cbn [snd] in *. rewrite H. rewrite upd_other by lia. reflexivity.
      * pose proof (IH (S idx) (upd st idx 0) k R Hg Hk) as H.
        destruct (checkForbidden (S idx) ps e (upd st idx 0)).
        cbn [snd] in *. rewrite H. rewrite upd_other by lia. reflexivity.
Qed.

Lemma checkForbidden_none ps e : forall idx st,
  forallb global ps = true ->
  run (checkForbidden idx ps e) st = [] ->
  forall k R, nth_error ps k = Some R -> exec R e (st (idx + k)) = None.
Proof.
  unfold run.
  induction ps as [|p ps IH]; intros idx st Hg Hnil k R Hk.
  - destruct k; discriminate.
  - simpl in Hg. apply andb_true_iff in Hg. destruct Hg as [Hp Hg].
    rewrite checkForbidden_cons, (@test_global _ _ _ _ Hp) in Hnil.
    destruct (exec p e (st idx)) as [[a b]|] eqn:E.
    + destruct (checkForbidden (S idx) ps e (upd st idx b)).
      discriminate Hnil.
    + destruct k as [|k]; simpl in Hk.
      * injection Hk as <-. rewrite Nat.add_0_r. exact E.
      * specialize (IH (S idx) (upd st idx 0) Hg).
        destruct (checkForbidden (S idx) ps e (upd st idx 0)).
        simpl in *. specialize (IH Hnil k R Hk).
        rewrite upd_other in IH by lia.
        replace (idx + S k) with (S idx + k) by lia. exact IH.
Qed.

Lemma checkForbidden_fresh ps e : forall idx st,
  forallb global ps = true ->
  (forall j, idx <= j < idx + length ps -> st j = 0) ->
  run (checkForbidden idx ps e) st =
  map (fun p => forbiddenViolation p e)
      (filter (fun p => testLiteral p e) ps).
Proof.
  unfold run.
  induction ps as [|p ps IH]; intros idx st Hg Hz; [reflexivity|].
  simpl in Hg. apply andb_true_iff in Hg. destruct Hg as [Hp Hg].
  rewrite checkForbidden_cons. cbn [filter].
  rewrite (@test_global _ _ _ _ Hp), Hz by (simpl; lia).
  unfold testLiteral.
  destruct (exec p e 0) as [[a b]|].
  - specialize (IH (S idx) (upd st idx b) Hg).
    destruct (checkForbidden (S idx) ps e (upd st idx b)).
    simpl in *. f_equal. apply IH.
    intros j Hj. rewrite upd_other by lia. apply Hz. lia.
  - specialize (IH (S idx) (upd st idx 0) Hg).
    destruct (checkForbidden (S idx) ps e (upd st idx 0)).
    simpl in *. apply IH.
    intros j Hj. rewrite upd_other by lia. apply Hz. lia.
Qed.

Lemma analyzeMessage_store settings text st :
  snd (analyzeMessage settings text st) =
  if sceneEndings (validationRules settings)
  then snd (checkForbidden 0 FORBIDDEN_PATTERNS
              (join space (getLastSentences text 3)) st)
  else st.
Proof.
  unfold analyzeMessage, bind.
  destruct (sceneEndings (validationRules settings)); [|reflexivity].
  unfold checkSceneEnding, bind.
  destruct (checkForbidden 0 FORBIDDEN_PATTERNS
              (join space (getLastSentences text 3)) st).
  reflexivity.
Qed.

Lemma checkSceneEnding_high settings ls st :
  filter (isSeverity high) (run (checkSceneEnding settings ls) st) =
  run (checkForbidden 0 FORBIDDEN_PATTERNS (join space ls)) st.
Proof.
  unfold run, checkSceneEnding, bind.
  pose proof (checkForbidden_kind FORBIDDEN_PATTERNS (join space ls) 0 st)
    as H.
  unfold run in H.
  destruct (checkForbidden 0 FORBIDDEN_PATTERNS (join space ls) st)
    as [found st1].
  unfold ret. cbn [fst] in *.
  assert (Hf : filter (isSeverity high) found = found).
  { apply filter_all. eapply Forall_impl; [|exact H].
    simpl. intros v [_ Hv]. unfold isSeverity. rewrite Hv. reflexivity. }
  destruct (negb (hasGoodEnding (join space ls)) && strictMode settings);
    [|exact Hf].
  rewrite filter_app, Hf. simpl. apply app_nil_r.
Qed.

Lemma analysis_high settings text st :
  filter (isSeverity high)
         (violations (run (analyzeMessage settings text) st)) =
  if sceneEndings (validationRules settings)
  then run (checkForbidden 0 FORBIDDEN_PATTERNS
              (join space (getLastSentences text 3))) st
  else [].
Proof.
  rewrite analyzeMessage_violations, !filter_app.
  assert (He : filter (isSeverity high)
                 (if showDontTell (validationRules settings)
                  then checkEmotionLabels text else []) = []).
  { destruct (showDontTell _); [|reflexivity].
    apply filter_none. eapply Forall_impl; [|apply checkEmotionLabels_kind].
    simpl. intros v [_ Hv]. unfold isSeverity. rewrite Hv. reflexivity. }
  assert (Hd : filter (isSeverity high)
                 (if dialogueNaturalness (validationRules settings)
                  then checkDialogue text else []) = []).
  { destruct (dialogueNaturalness _); [|reflexivity].
    apply filter_none. eapply Forall_impl; [|apply checkDialogue_kind].
    simpl. intros v [_ Hv]. unfold isSeverity. rewrite Hv. reflexivity. }
  rewrite He, Hd, !app_nil_r.
  destruct (sceneEndings _); [|reflexivity].
  apply checkSceneEnding_high.
Qed.

(** X6.  When [lastIndex] of every forbidden pattern is 0, as when the
    module is loaded, an analysis with the scene-ending check on reports one
    high violation for each forbidden pattern that matches the joined ending
    window, in the order of [FORBIDDEN_PATTERNS], and no other high
    violation. *)
Theorem fresh_analysis_reports_matches settings text st :
  sceneEndings (validationRules settings) = true ->
  (forall j, j < 7 -> st j = 0) ->
  let analysis := run (analyzeMessage settings text) st in
  let endingText := join space (lastSentences analysis) in
  filter (isSeverity high) (violations analysis) =
    map (fun p => forbiddenViolation p endingText)
        (filter (fun p => testLiteral p endingText) FORBIDDEN_PATTERNS) /\
  (forall p, testLiteral p endingText = true <->
             exists pre w post, OccursAt p endingText pre w post) /\
  (filter (isSeverity high) (violations analysis) <> [] <->
   Forbidden endingText).
Proof.
  intros Hon Hz analysis endingText. subst analysis endingText.
  rewrite analysis_high, Hon, analyzeMessage_lastSentences.
  rewrite checkForbidden_fresh; [|reflexivity|intros j Hj; apply Hz; simpl in Hj; lia].
  split; [reflexivity|]. split; [intros p; apply testLiteral_iff|].
  set (e := join space (getLastSentences text 3)).
  split.
  - intros Hne.
    destruct (filter (fun p => testLiteral p e) FORBIDDEN_PATTERNS)
      as [|p l] eqn:E; [contradiction|].
    assert (Hin : In p (filter (fun p => testLiteral p e) FORBIDDEN_PATTERNS))
      by (rewrite E; left; reflexivity).
    apply filter_In in Hin. destruct Hin as [Hp Ht].
    apply testLiteral_iff in Ht. destruct Ht as (pre & w & post & Ho).
    exists p, pre, w, post. auto.
  - intros (R & pre & w & post & HR & Ho) Hnil.
    assert (Hin : In R (filter (fun p => testLiteral p e) FORBIDDEN_PATTERNS)).
    { apply filter_In. split; [exact HR|].
      apply testLiteral_iff. eauto. }
    apply (in_map (fun p => forbiddenViolation p e)) in Hin.
    rewrite Hnil in Hin. contradiction.
Qed.

Lemma fresh_analysis_reports_matches_witness :
  let text := lit "It read like a fortune cookie. One day at a time." in
  sceneEndings (validationRules defaultSettings) = true /\
  (forall j, j < 7 -> initialStore j = 0) /\
  map v_pattern
      (filter (isSeverity high)
         (violations (run (analyzeMessage defaultSettings text)
                          initialStore)))
  = [Some (lit "one day at a time"); Some (lit "fortune cookie")].
Proof.
  intros text. split; [reflexivity|]. split; [intros j _; reflexivity|].
  rewrite (proj1 (@fresh_analysis_reports_matches defaultSettings text
                    initialStore eq_refl (fun j _ => eq_refl))).
  reflexivity.
Defined.

(** X7.  What an analysis with the scene-ending check on leaves in the
    regex objects: [lastIndex] of a forbidden pattern is at most the length
    of the joined ending window, nothing else is written, and when the
    analysis reports no high violation every [lastIndex] is back at 0, so
    that the next analysis starts as from a freshly loaded module. *)
Theorem analysis_lastIndex settings text st :
  sceneEndings (validationRules settings) = true ->
  let analysis := run (analyzeMessage settings text) st in
  let st' := snd (analyzeMessage settings text st) in
  (forall j, 7 <= j -> st' j = st j) /\
  (forall j, j < 7 ->
     st' j <= length (join space (lastSentences analysis))) /\
  (filter (isSeverity high) (violations analysis) = [] ->
   forall j, j < 7 -> st' j = 0).
Proof.
  intros Hon analysis st'. subst analysis st'.
  rewrite analyzeMessage_store, analysis_high, analyzeMessage_lastSentences,
    Hon.
  set (e := join space (getLastSentences text 3)).
  assert (Hnth : forall j, j < 7 ->
            exists R, nth_error FORBIDDEN_PATTERNS j = Some R).
  { intros j Hj.
    destruct (nth_error FORBIDDEN_PATTERNS j) as [R|] eqn:E; [eauto|].
    apply nth_error_None in E. simpl in E. lia. }
  split; [|split].
  - intros j Hj. apply checkForbidden_outside. simpl. lia.
  - intros j Hj. destruct (Hnth j Hj) as (R & HR).
    pose proof (@checkForbidden_store FORBIDDEN_PATTERNS e 0 st j R
                  eq_refl HR) as H.
    cbn [Nat.add] in H. rewrite H.
    destruct (exec R e (st j)) as [[a b]|] eqn:E; [|lia].
    exact (exec_end_bound _ _ _ E).
  - intros Hnil j Hj. destruct (Hnth j Hj) as (R & HR).
    pose proof (@checkForbidden_store FORBIDDEN_PATTERNS e 0 st j R
                  eq_refl HR) as H.
    cbn [Nat.add] in H. rewrite H.
    pose proof (@checkForbidden_none FORBIDDEN_PATTERNS e 0 st eq_refl
                  Hnil j R HR) as Hx.
    cbn [Nat.add] in Hx. rewrite Hx. reflexivity.
Qed.

Lemma analysis_lastIndex_witness :
  let text := lit "She grabbed the towel." in
  let st := upd initialStore 0 17 in
  sceneEndings (validationRules defaultSettings) = true /\
  filter (isSeverity high)
         (violations (run (analyzeMessage defaultSettings text) st)) = [] /\
  forall j, j < 7 -> snd (analyzeMessage defaultSettings text st) j = 0.
Proof.
  intros text st. split; [reflexivity|].
  assert (H : filter (isSeverity high)
                (violations (run (analyzeMessage defaultSettings text) st))
              = []) by reflexivity.
  split; [exact H|].
  exact (proj2 (proj2 (@analysis_lastIndex defaultSettings text st eq_refl))
           H).
Defined.

(** ** When the fallback drops a sentence *)

Lemma someTest_iff ps s : forall idx st,
  forallb global ps = true ->
  (run (someTest idx ps s) st = true <->
   exists k R, nth_error ps k = Some R /\ exec R s (st (idx + k)) <> None).
Proof.
  unfold run.
  induction ps as [|p ps IH]; intros idx st Hg.
  - simpl. split; [discriminate|].
    intros (k & R & Hk & _). destruct k; discriminate.
  - simpl in Hg. apply andb_true_iff in Hg. destruct Hg as [Hp Hg].
    cbn [someTest]. unfold bind. rewrite (@test_global _ _ _ _ Hp).
    destruct (exec p s (st idx)) as [[a b]|] eqn:E.
    + simpl. split; [intros _|reflexivity].
      exists 0, p. rewrite Nat.add_0_r, E. split; [reflexivity|discriminate].
    + rewrite (IH (S idx) (upd st idx 0) Hg). split.
      * intros (k & R & Hk & Hx). exists (S k), R.
        rewrite upd_other in Hx by lia.
        replace (idx + S k) with (S idx + k) by lia. auto.
      * intros (k & R & Hk & Hx). destruct k as [|k]; simpl in Hk.
        -- injection Hk as <-. rewrite Nat.add_0_r, E in Hx. contradiction.
        -- exists k, R. rewrite upd_other by lia.
           replace (S idx + k) with (idx + S k) by lia. auto.
Qed.

Lemma prunedSentences_iff text analysis st :
  run (prunedSentences text analysis) st <> None <->
  filter (isType scene_ending) (violations analysis) <> [] /\
  2 < length (sentencesOf text) /\
  exists k R pre w post,
    nth_error FORBIDDEN_PATTERNS k = Some R /\
    OccursAt R (last (sentencesOf text) []) pre w post /\
    st k <= length pre.
Proof.
  pose proof (@someTest_iff FORBIDDEN_PATTERNS
                (last (sentencesOf text) []) 0 st eq_refl) as Hs.
  unfold run in *. unfold prunedSentences.
  destruct (filter (isType scene_ending) (violations analysis)) as [|v l].
  { change (Nat.ltb 0 (length (@nil Violation))) with false. cbv iota.
    unfold ret. cbn [fst].
    split; [intros H; exfalso; apply H; reflexivity|].
    intros [H _]. contradiction. }
  change (Nat.ltb 0 (length (v :: l))) with true. cbv iota.
  destruct (Nat.ltb 2 (length (sentencesOf text))) eqn:En.
  2:{ apply Nat.ltb_ge in En. unfold ret. cbn [fst].
      split; [intros H; exfalso; apply H; reflexivity|].
      intros (_ & H & _). lia. }
  apply Nat.ltb_lt in En. unfold bind.
  destruct (someTest 0 FORBIDDEN_PATTERNS (last (sentencesOf text) []) st)
    as [b st1].
  cbn [fst] in Hs.
  destruct b.
  - destruct (someTest 0 FORBIDDEN_PATTERNS _ st1) as [b2 st2].
    unfold ret. cbn [fst].
    split; [intros _|discriminate].
    split; [discriminate|]. split; [exact En|].
    destruct (proj1 Hs eq_refl) as (k & R & Hk & Hx).
    apply exec_iff in Hx. destruct Hx as (pre & w & post & Ho & Hli).
    exists k, R, pre, w, post. auto.
  - unfold ret. cbn [fst].
    split; [intros H; exfalso; apply H; reflexivity|].
    intros (_ & _ & (k & R & pre & w & post & Hk & Ho & Hli)).
    assert (Hx : false = true).
    { apply Hs. exists k, R. split; [exact Hk|].
      apply exec_iff. exists pre, w, post. auto. }
    discriminate.
Qed.

(** X8.  The fallback rebuilds the text from fewer sentences exactly when
    the analysis holds a scene-ending violation, the text has more than two
    sentences, and some forbidden pattern has a match in the last sentence
    that starts at or after the current [lastIndex] of that pattern. *)
Theorem fallback_drop_criterion text analysis st :
  run (prunedSentences text analysis) st <> None <->
  filter (isType scene_ending) (violations analysis) <> [] /\
  2 < length (sentencesOf text) /\
  exists k R pre w post,
    nth_error FORBIDDEN_PATTERNS k = Some R /\
    OccursAt R (last (sentencesOf text) []) pre w post /\
    st k <= length pre.
Proof. apply prunedSentences_iff. Qed.

Lemma Matches_nonempty i r : forall prev w next,
  nullable r = false -> Matches i r prev w next -> w <> [].
Proof.
  induction r as [|x|cs|cs|r1 IH1 r2 IH2|r1 IH1 r2 IH2|];
    intros prev w next Hn HM; simpl in *; try discriminate.
  - destruct HM as (ch & -> & _). discriminate.
  - destruct HM as (ch & -> & _). discriminate.
  - destruct HM as (w1 & w2 & -> & M1 & M2).
    apply andb_false_iff in Hn. destruct Hn as [Hn|Hn].
    + pose proof (IH1 _ _ _ Hn M1) as H. destruct w1; [contradiction|].
      discriminate.
    + pose proof (IH2 _ _ _ Hn M2) as H. destruct w2; [contradiction|].
      destruct w1; discriminate.
  - apply orb_false_iff in Hn. destruct Hn as [Hn1 Hn2].
    destruct HM as [M1|M2]; eauto.
Qed.

Lemma Matches_prev i r : forall prev prev' w next,
  noWordB r = true -> Matches i r prev w next -> Matches i r prev' w next.
Proof.
  induction r as [|x|cs|cs|r1 IH1 r2 IH2|r1 IH1 r2 IH2|];
    intros prev prev' w next Hb HM; simpl in *; try discriminate; auto.
  - apply andb_true_iff in Hb. destruct Hb as [Hb1 Hb2].
    destruct HM as (w1 & w2 & -> & M1 & M2).
    exists w1, w2. split; [reflexivity|]. split; eauto.
  - apply andb_true_iff in Hb. destruct Hb as [Hb1 Hb2].
    destruct HM as [M1|M2]; [left|right]; eauto.
Qed.

Lemma join_last sep : forall l,
  l <> [] -> exists p, join sep l = p ++ last l [].
Proof.
  induction l as [|x l IH]; intros Hne; [contradiction|].
  destruct l as [|y l].
  - exists []. reflexivity.
  - destruct IH as (p & Hp); [discriminate|].
    exists (x ++ sep ++ p). cbn [join last] in *. rewrite Hp.
    rewrite <- !app_assoc. reflexivity.
Qed.

Lemma last_app_nonempty (A : Type) (d : A) (a b : list A) :
  b <> [] -> last (a ++ b) d = last b d.
Proof.
  intros Hb. induction a as [|x a IH]; [reflexivity|].
  cbn [app last]. destruct (a ++ b) eqn:E; [|exact IH].
  apply app_eq_nil in E. destruct E as [_ E]. contradiction.
Qed.

Lemma window_last text :
  2 < length (sentencesOf text) ->
  exists p,
    join space (getLastSentences text 3) = p ++ last (sentencesOf text) [].
Proof.
  intros Hn. unfold getLastSentences.
  destruct (slice_last_suffix 3 (sentencesOf text)) as (earlier & H1 & H2).
  cbn [Nat.eqb] in H2.
  assert (Hne : slice_last 3 (sentencesOf text) <> []).
  { intros E. rewrite E in H2. cbn [length] in H2. lia. }
  destruct (join_last space Hne) as (p & Hp).
  exists p. rewrite Hp. f_equal.
  rewrite H1 at 2. symmetry. apply last_app_nonempty. exact Hne.
Qed.

(** X9.  One message cycle that starts with every [lastIndex] at 0: when
    no forbidden pattern matches at more than one place of the joined
    ending window, the fallback that follows the analysis drops no
    sentence, whatever the analysis reported; it returns the text with the
    emotion labels marked. *)
Theorem message_cycle_single_match settings text st :
  (forall j, j < 7 -> st j = 0) ->
  let analysis := run (analyzeMessage settings text) st in
  let st1 := snd (analyzeMessage settings text st) in
  (forall R pre1 w1 post1 pre2 w2 post2,
     In R FORBIDDEN_PATTERNS ->
     OccursAt R (join space (lastSentences analysis)) pre1 w1 post1 ->
     OccursAt R (join space (lastSentences analysis)) pre2 w2 post2 ->
     length pre1 = length pre2) ->
  run (prunedSentences text analysis) st1 = None /\
  run (analyzeThenFallback settings text) st
  = markEmotionLabels text analysis.
Proof.
  intros Hz analysis st1 Huniq.
  assert (Hnone : run (prunedSentences text analysis) st1 = None).
  { destruct (run (prunedSentences text analysis) st1) as [kept|] eqn:E;
      [|reflexivity].
    exfalso.
    assert (Hne : run (prunedSentences text analysis) st1 <> None)
      by (rewrite E; discriminate).
    apply prunedSentences_iff in Hne.
    destruct Hne as (Hscene & Hn & k & R & pre & w & post & Hk & Ho & Hli).
    subst analysis st1.
    rewrite analyzeMessage_lastSentences in Huniq.
    rewrite violations_by_type in Hscene.
    destruct (sceneEndings (validationRules settings)) eqn:Hon;
      [|contradiction].
    rewrite analyzeMessage_store, Hon in Hli.
    set (e := join space (getLastSentences text 3)) in *.
    pose proof (@checkForbidden_store FORBIDDEN_PATTERNS e 0 st k R
                  eq_refl Hk) as Hst.
    cbn [Nat.add] in Hst. rewrite Hst in Hli.
    assert (Hk7 : k < 7).
    { assert (nth_error FORBIDDEN_PATTERNS k <> None) as H
        by (rewrite Hk; discriminate).
      apply nth_error_Some in H. exact H. }
    rewrite (Hz k Hk7) in Hli.
    assert (HR : In R FORBIDDEN_PATTERNS) by (eapply nth_error_In; eauto).
    assert (HnoB : noWordB (ast R) = true).
    { assert (H : forallb (fun p => noWordB (ast p)) FORBIDDEN_PATTERNS
                  = true) by reflexivity.
      rewrite forallb_forall in H. apply H. exact HR. }
    assert (Hnn : nullable (ast R) = false).
    { assert (H : forallb (fun p => negb (nullable (ast p)))
                    FORBIDDEN_PATTERNS = true) by reflexivity.
      rewrite forallb_forall in H. apply negb_true_iff. apply H. exact HR. }
    destruct (window_last text Hn) as (p & Hp). fold e in Hp.
    destruct Ho as [Hlast HM].
    assert (Ho' : OccursAt R e (p ++ pre) w post).
    { split.
      - rewrite Hp, Hlast, <- app_assoc. reflexivity.
      - exact (@Matches_prev _ _ _ _ _ _ HnoB HM). }
    pose proof (exec_complete Ho') as Hex.
    destruct (exec R e 0) as [[a b]|] eqn:Ee; [|contradiction].
    apply exec_sound in Ee.
    destruct Ee as (pre0 & w0 & post0 & Ho0 & -> & -> & _).
    pose proof (Huniq R _ _ _ _ _ _ HR Ho0 Ho') as Hl.
    destruct Ho0 as [_ HM0].
    pose proof (@Matches_nonempty _ _ _ _ _ Hnn HM0) as Hw0.
    rewrite length_app in Hl.
    destruct w0; [contradiction|]. simpl in Hli. lia. }
  split; [exact Hnone|].
  unfold analyzeThenFallback. rewrite run_bind.
  fold analysis. fold st1.
  unfold fallbackCorrection. rewrite run_bind.
  rewrite fixSceneEndings_run, Hnone. reflexivity.
Qed.

Lemma message_cycle_single_match_witness :
  let text := lit "A. B. One day at a time." in
  let analysis := run (analyzeMessage defaultSettings text) initialStore in
  let st1 := snd (analyzeMessage defaultSettings text initialStore) in
  (forall j, j < 7 -> initialStore j = 0) /\
  map v_severity (violations analysis) = [high] /\
  (forall R pre1 w1 post1 pre2 w2 post2,
     In R FORBIDDEN_PATTERNS ->
     OccursAt R (join space (lastSentences analysis)) pre1 w1 post1 ->
     OccursAt R (join space (lastSentences analysis)) pre2 w2 post2 ->
     length pre1 = length pre2) /\
  run (prunedSentences text analysis) st1 = None /\
  run (analyzeThenFallback defaultSettings text) initialStore
  = markEmotionLabels text analysis.
Proof.
  intros text analysis st1.
  assert (Hu : forall R pre1 w1 post1 pre2 w2 post2,
             In R FORBIDDEN_PATTERNS ->
             OccursAt R (join space (lastSentences analysis)) pre1 w1 post1 ->
             OccursAt R (join space (lastSentences analysis)) pre2 w2 post2 ->
             length pre1 = length pre2).
  { intros R pre1 w1 post1 pre2 w2 post2 HR H1 H2.
    apply occurs_matchPositions in H1, H2.
    remember (length pre1) as n1 eqn:E1. clear E1.
    remember (length pre2) as n2 eqn:E2. clear E2.
    destruct HR as [<-|[<-|[<-|[<-|[<-|[<-|[<-|[]]]]]]]];
      vm_compute in H1, H2;
      repeat match goal with
             | H : _ \/ _ |- _ => destruct H
             | H : False |- _ => destruct H
             end; subst; reflexivity. }
  split; [intros j _; reflexivity|]. split; [reflexivity|].
  split; [exact Hu|].
  exact (@message_cycle_single_match defaultSettings text initialStore
           (fun j _ => eq_refl) Hu).
Defined.

(** ** Marking one emotion label *)

Lemma startsWith_app pat a : startsWith pat (pat ++ a) = true.
Proof.
  induction pat as [|c pat IH]; simpl; [reflexivity|].
  rewrite N.eqb_refl. exact IH.
Qed.

Lemma splitAtFirst_complete pat after : forall before,
  exists b a,
    splitAtFirst pat (before ++ pat ++ after) = Some (b, a) /\
    length b <= length before.
Proof.
  induction before as [|c before IH].
  - simpl. destruct (pat ++ after) as [|x s] eqn:E.
    + destruct pat; [|discriminate]. simpl. exists [], []. auto.
    + cbn [splitAtFirst]. rewrite <- E, startsWith_app.
      eexists _, _. split; [reflexivity|]. simpl. lia.
  - cbn [app splitAtFirst].
    destruct (startsWith pat (c :: before ++ pat ++ after)).
    + eexists _, _. split; [reflexivity|]. simpl. lia.
    + destruct IH as (b & a & -> & Hl).
      exists (c :: b), a. split; [reflexivity|]. simpl. lia.
Qed.

Lemma splitAtFirst_first pat : forall s before after b a,
  splitAtFirst pat s = Some (before, after) ->
  s = b ++ pat ++ a -> length before <= length b.
Proof.
  intros s before after b a H Hs.
  destruct (splitAtFirst_complete pat a b) as (b' & a' & H' & Hl).
  rewrite <- Hs, H in H'. injection H' as <- <-. exact Hl.
Qed.

Lemma not_in_forallb c (w : jsstring) :
  ~ In c w -> forallb (fun d => negb (N.eqb d c)) w = true.
Proof.
  intros H. apply forallb_forall. intros d Hd.
  apply negb_true_iff, N.eqb_neq. intros ->. contradiction.
Qed.

(** X10.  When an analysis holds no scene-ending violation and exactly one
    show-don't-tell violation, the fallback wraps the first occurrence of
    that label in the text into the marker and changes nothing else: the
    text before and after it is kept unit for unit (so the result is 19
    units longer), and no regex object is touched. *)
Theorem fallback_marks_single_label settings text st st' v :
  let analysis := run (analyzeMessage settings text) st in
  filter (isType scene_ending) (violations analysis) = [] ->
  filter (isType show_dont_tell) (violations analysis) = [v] ->
  exists before after,
    text = before ++ v_text v ++ after /\
    (forall b a, text = b ++ v_text v ++ a -> length before <= length b) /\
    fallbackCorrection text analysis st'
    = (before ++ lit "[SHOW-DON'T-TELL: " ++ v_text v ++ lit "]" ++ after,
       st').
Proof.
  intros analysis Hscene Hemo.
  assert (Hv : In v (checkEmotionLabels text)).
  { subst analysis. rewrite violations_by_type in Hemo.
    destruct (showDontTell (validationRules settings)); [|discriminate].
    rewrite Hemo. left. reflexivity. }
  apply checkEmotionLabels_In in Hv.
  destruct Hv as (R & w & HR & Hw & Hvw).
  assert (Htext : v_text v = w) by (rewrite Hvw; reflexivity).
  apply matchAll_sound in Hw. destruct Hw as (pre & post & Ht & HM).
  assert (Hdollar : forallb (fun d => negb (N.eqb d 36)) w = true).
  { apply not_in_forallb.
    apply (@avoids_sound (ignoreCase R) 36%N (ast R) _ _ _) with (2 := HM).
    assert (H : forallb (fun p => avoids (ignoreCase p) (ast p) 36)
                  EMOTION_LABELS = true) by reflexivity.
    rewrite forallb_forall in H. apply H. exact HR. }
  destruct (splitAtFirst_complete w post pre) as (before & after & Hs & _).
  rewrite <- Ht in Hs.
  destruct (replace_marks_once _ _ Hs Hdollar) as (E1 & E2 & _).
  exists before, after. rewrite Htext.
  split; [exact E1|]. split.
  - intros b a Hb. exact (splitAtFirst_first _ _ _ Hs Hb).
  - unfold fallbackCorrection, fixSceneEndings, prunedSentences,
      markEmotionLabels, bind.
    rewrite Hscene, Hemo. unfold ret. cbn [length Nat.ltb Nat.leb fold_left].
    rewrite Htext, E2. unfold marker. rewrite <- !app_assoc. reflexivity.
Qed.

Lemma fallback_marks_single_label_witness :
  let text := lit "Then I felt angry, truly." in
  let analysis := run (analyzeMessage defaultSettings text) initialStore in
  filter (isType scene_ending) (violations analysis) = [] /\
  filter (isType show_dont_tell) (violations analysis)
    = [emotionViolation (lit "I felt angry")] /\
  exists before after,
    text = before ++ lit "I felt angry" ++ after /\
    (forall b a, text = b ++ lit "I felt angry" ++ a ->
                 length before <= length b) /\
    fallbackCorrection text analysis initialStore
    = (before ++ lit "[SHOW-DON'T-TELL: " ++ lit "I felt angry" ++ lit "]"
       ++ after, initialStore).
Proof.
  intros text analysis.
  split; [reflexivity|]. split; [reflexivity|].
  exact (@fallback_marks_single_label defaultSettings text initialStore
           initialStore (emotionViolation (lit "I felt angry"))
           eq_refl eq_refl).
Defined.

(** ** The word count *)

Lemma whitespace_matchAt prev s :
  matchAt whitespacePattern prev s =
  match s with
  | [] => None
  | c :: s' =>
      if isWhiteSpace c
      then Some (S (length s' - length (dropWhile isWhiteSpace s')))
      else None
  end.
Proof.
  unfold matchAt, whitespacePattern. cbn [ignoreCase ast].
  destruct s as [|c s]; [reflexivity|].
  cbn [m Plus in_cs]. destruct (isWhiteSpace c); [|reflexivity].
  rewrite star_accept. f_equal.
  change (dropWhile (in_cs SpaceChars) s) with (dropWhile isWhiteSpace s).
  destruct (dropWhile_split isWhiteSpace s) as (pre & Hs & _).
  assert (length s = length pre + length (dropWhile isWhiteSpace s)).
  { rewrite Hs at 1. apply length_app. }
  cbn [length]. lia.
Qed.

Lemma whiteSpaceRuns_head r :
  match r with [] => True | c :: _ => isWhiteSpace c = false end ->
  whiteSpaceRuns true r = whiteSpaceRuns false r.
Proof.
  destruct r as [|c r]; [reflexivity|]. intros H. simpl. rewrite H.
  reflexivity.
Qed.

Lemma dropWhile_id p s :
  length (dropWhile p s) = length s -> dropWhile p s = s.
Proof.
  destruct (dropWhile_split p s) as (pre & Hs & _).
  intros Hl. rewrite Hs in Hl at 2. rewrite length_app in Hl.
  destruct pre; [|simpl in Hl; lia]. symmetry. exact Hs.
Qed.

Lemma splitLoop_length : forall s prev cur n,
  (0 < n ->
   n <= length s /\ forallb isWhiteSpace (firstn n s) = true /\
   match skipn n s with [] => True | c :: _ => isWhiteSpace c = false end) ->
  length (splitLoop whitespacePattern prev s cur n)
  = S (whiteSpaceRuns (Nat.ltb 0 n) s).
Proof.
  induction s as [|c s IH]; intros prev cur n Hc; [reflexivity|].
  destruct n as [|n].
  - cbn [splitLoop]. rewrite whitespace_matchAt.
    change (Nat.ltb 0 0) with false. cbn [whiteSpaceRuns].
    destruct (isWhiteSpace c) eqn:Ec.
    + set (k := length s - length (dropWhile isWhiteSpace s)).
      cbn [length]. rewrite IH.
      * f_equal. cbn [Nat.add]. f_equal.
        destruct k as [|k'] eqn:Ek; [|reflexivity].
        change (Nat.ltb 0 0) with false. symmetry.
        apply whiteSpaceRuns_head.
        assert (Hd : dropWhile isWhiteSpace s = s).
        { apply dropWhile_id.
          destruct (dropWhile_split isWhiteSpace s) as (pre & Hs & _).
          assert (length s = length pre + length (dropWhile isWhiteSpace s))
            by (rewrite Hs at 1; apply length_app).
          subst k. lia. }
        destruct s as [|x s']; [exact I|].
        exact (dropWhile_head _ _ Hd).
      * intros Hk.
        destruct (dropWhile_split isWhiteSpace s) as (pre & Hs & Hp).
        assert (Hl : length s = length pre
                                + length (dropWhile isWhiteSpace s))
          by (rewrite Hs at 1; apply length_app).
        assert (Hk' : k = length pre) by (subst k; lia).
        split; [lia|].
        rewrite Hs, Hk'. rewrite firstn_app, firstn_all, Nat.sub_diag.
        rewrite skipn_app, skipn_all, Nat.sub_diag. simpl.
        rewrite app_nil_r. split; [exact Hp|].
        destruct (dropWhile isWhiteSpace s) as [|x d] eqn:Ed; [exact I|].
        exact (dropWhile_head _ _ Ed).
    + rewrite IH by (intros H; inversion H). reflexivity.
  - destruct (Hc (Nat.lt_0_succ n)) as (Hn & Hf & Hs).
    cbn [firstn forallb] in Hf. apply andb_true_iff in Hf.
    destruct Hf as [Hcw Hf]. cbn [skipn] in Hs. cbn [length] in Hn.
    cbn [splitLoop]. change (Nat.ltb 0 (S n)) with true.
    cbn [whiteSpaceRuns]. rewrite Hcw. cbn [Nat.add].
    rewrite IH.
    + f_equal. destruct n as [|n']; [|reflexivity].
      change (Nat.ltb 0 0) with false. symmetry.
      apply whiteSpaceRuns_head. exact Hs.
    + intros _. split; [lia|]. split; [exact Hf|exact Hs].
Qed.

Lemma analyzeMessage_wordCount settings text st :
  wordCount (run (analyzeMessage settings text) st) =
  length (split whitespacePattern text).
Proof.
  unfold run, analyzeMessage, bind.
  destruct (sceneEndings (validationRules settings)).
  - destruct (checkSceneEnding settings (getLastSentences text 3) st).
    reflexivity.
  - reflexivity.
Qed.

(** X11.  [wordCount] is one more than the number of maximal runs of white
    space in the text as it is given (not trimmed): it is never 0, it is 1
    for the empty text, and white space at the start or at the end of the
    text adds one each. *)
Theorem wordCount_runs settings text st :
  wordCount (run (analyzeMessage settings text) st)
  = S (whiteSpaceRuns false text).
Proof.
  rewrite analyzeMessage_wordCount. unfold split.
  destruct text as [|c s]; [reflexivity|].
  apply splitLoop_length. intros H. inversion H.
Qed.

(** ** The message cycle *)

Lemma jsstring_eqb_true a : forall b, jsstring_eqb a b = true -> a = b.
Proof.
  induction a as [|x a IH]; intros [|y b] H; simpl in H;
    try discriminate; [reflexivity|].
  apply andb_true_iff in H. destruct H as [H1 H2].
  apply N.eqb_eq in H1. apply IH in H2. subst. reflexivity.
Qed.

Lemma pickMessage_In chat messageId message :
  pickMessage chat messageId = Some message ->
  In message (chat_array chat).
Proof.
  unfold pickMessage. destruct messageId as [z|].
  - destruct (Z.ltb z 0); [discriminate|]. apply nth_error_In.
  - destruct (chat_array chat) as [|r0 rest]; [discriminate|].
    apply nth_error_In.
Qed.

Lemma indexOfFrom_first message : forall array base,
  In message array ->
  exists k,
    indexOfFrom message array base = (base + Z.of_nat k)%Z /\
    nth_error array k = Some message /\
    forall j, j < k -> nth_error array j <> Some message.
Proof.
  induction array as [|ref rest IH]; intros base Hin; [contradiction|].
  cbn [indexOfFrom]. destruct (Nat.eqb ref message) eqn:E.
  - apply Nat.eqb_eq in E. subst ref. exists 0.
    split; [simpl; lia|]. split; [reflexivity|]. intros j Hj. lia.
  - apply Nat.eqb_neq in E.
    destruct Hin as [Hin|Hin]; [contradiction|].
    destruct (IH (base + 1)%Z Hin) as (k & Hk & Hn & Hfirst).
    exists (S k). split; [rewrite Hk; lia|]. split; [exact Hn|].
    intros [|j] Hj; simpl.
    + intros H. injection H as H. contradiction.
    + apply Hfirst. lia.
Qed.

Lemma indexOf_first message array :
  In message array ->
  exists k,
    indexOf message array = Z.of_nat k /\
    nth_error array k = Some message /\
    forall j, j < k -> nth_error array j <> Some message.
Proof.
  intros Hin. destruct (@indexOfFrom_first message array 0%Z Hin) as (k & Hk & H).
  exists k. split; [exact Hk|exact H].
Qed.

Lemma setMes_same message t chat :
  chat_object (setMes message t chat) message
  = mkMessage (is_user (chat_object chat message)) t.
Proof. unfold setMes. cbn [chat_object]. rewrite Nat.eqb_refl. reflexivity. Qed.

Lemma setMes_other message t chat ref :
  ref <> message ->
  chat_object (setMes message t chat) ref = chat_object chat ref.
Proof.
  intros H. unfold setMes. cbn [chat_object].
  apply Nat.eqb_neq in H. rewrite H. reflexivity.
Qed.

(** The outcome of [handleMessageEvent] on a message it works on. *)
Lemma handleMessageEvent_run settings host chat messageId st message :
  enabled settings = true ->
  pickMessage chat messageId = Some message ->
  is_user (chat_object chat message) = false ->
  let messageText := mes (chat_object chat message) in
  let analysis := run (analyzeMessage settings messageText) st in
  let st1 := snd (analyzeMessage settings messageText st) in
  let correctedText :=
    run (correctMessage (host_generateQuietPrompt host) messageText
           analysis) st1 in
  let changed :=
    autoCorrect settings && truthy correctedText
    && negb (jsstring_eqb correctedText messageText) in
  let mesIndex := indexOf message (chat_array chat) in
  run (handleMessageEvent settings host chat messageId) st =
  match violations analysis with
  | [] =>
      (chat,
       if showNoViolations settings && host_toastr host
       then [successToast analysis] else [])
  | _ :: _ =>
      (if changed then setMes message correctedText chat else chat,
       (if changed
        then (if host_messageElement host mesIndex
                 && host_mesText host mesIndex
              then [SetHtml mesIndex correctedText] else [])
             ++ [SaveChatDebounced]
        else [])
       ++ (if warnings settings then
             match showWarnings (host_toastr host) (violations analysis) with
             | Some emission => [Emit emission]
             | None => []
             end
           else []))
  end.
Proof.
  intros Hen Hpick Huser messageText analysis st1 correctedText changed
    mesIndex.
  unfold handleMessageEvent. rewrite Hen, Hpick, Huser. cbn [negb].
  cbv zeta. fold messageText.
  rewrite run_bind. fold analysis. fold st1.
  destruct (violations analysis) as [|v l] eqn:Ev.
  - reflexivity.
  - change (Nat.ltb 0 (length (v :: l))) with true. cbv iota.
    rewrite run_bind. subst changed.
    destruct (autoCorrect settings); [|reflexivity].
    rewrite run_bind. fold correctedText. cbn [andb].
    destruct (truthy correctedText
              && negb (jsstring_eqb correctedText messageText));
      reflexivity.
Qed.

Lemma handleMessageEvent_skip settings host chat messageId st :
  enabled settings = false \/
  pickMessage chat messageId = None \/
  (exists message,
     pickMessage chat messageId = Some message /\
     is_user (chat_object chat message) = true) ->
  handleMessageEvent settings host chat messageId st = ((chat, []), st).
Proof.
  unfold handleMessageEvent.
  intros [H|[H|(message & H & Hu)]].
  - rewrite H. reflexivity.
  - rewrite H. destruct (negb (enabled settings)); reflexivity.
  - rewrite H, Hu. destruct (negb (enabled settings)); reflexivity.
Qed.

Lemma last_nth_error (A : Type) (d : A) : forall (x : A) (l : list A),
  nth_error (x :: l) (length (x :: l) - 1) = Some (last (x :: l) d).
Proof.
  intros x l. revert x. induction l as [|y l IH]; intros x.
  - reflexivity.
  - specialize (IH y). cbn [length] in *.
    replace (S (S (length l)) - 1) with (S (length l)) by lia.
    replace (S (length l) - 1) with (length l) in IH by lia.
    cbn [nth_error]. rewrite IH. reflexivity.
Qed.

Lemma last_map_nonempty (A B : Type) (f : A -> B) (d : A) (d' : B) :
  forall x l, last (map f (x :: l)) d' = f (last (x :: l) d).
Proof.
  intros x l. revert x. induction l as [|y l IH]; intros x; [reflexivity|].
  specialize (IH y). cbn [map last] in *. exact IH.
Qed.

(** X12.  Which message an event is about, and when the handler does
    nothing.  A number picks the message at that index, anything else the
    last message; a negative or too large number, or an empty chat, picks
    none.  When validation is disabled, no message is picked or the picked
    message is the user's, the chat is returned as it is, nothing is called
    and no regex object is touched. *)
Theorem handleMessageEvent_ignores settings host chat messageId st :
  (forall z, pickMessage chat (NumberId z) =
             if Z.ltb z 0 then None
             else nth_error (chat_array chat) (Z.to_nat z)) /\
  (forall z, option_map (chat_object chat) (pickMessage chat (NumberId z)) =
             if Z.ltb z 0 then None
             else nth_error (chatMessages chat) (Z.to_nat z)) /\
  (forall z, pickMessage chat (NumberId z) = None <->
             (z < 0)%Z \/ (Z.of_nat (length (chatMessages chat)) <= z)%Z) /\
  pickMessage chat OtherId =
    match chat_array chat with
    | [] => None
    | _ :: _ => Some (last (chat_array chat) 0)
    end /\
  option_map (chat_object chat) (pickMessage chat OtherId) =
    match chatMessages chat with
    | [] => None
    | _ :: _ => Some (last (chatMessages chat) (mkMessage false []))
    end /\
  (enabled settings = false \/
   pickMessage chat messageId = None \/
   (exists message,
      pickMessage chat messageId = Some message /\
      is_user (chat_object chat message) = true) ->
   handleMessageEvent settings host chat messageId st = ((chat, []), st)).
Proof.
  split; [|split; [|split; [|split; [|split]]]].
  - intros z. reflexivity.
  - intros z. unfold pickMessage, chatMessages.
    destruct (Z.ltb z 0); [reflexivity|].
    rewrite nth_error_map. reflexivity.
  - intros z. unfold pickMessage, chatMessages. rewrite length_map.
    destruct (Z.ltb z 0) eqn:Ez.
    + apply Z.ltb_lt in Ez. split; [auto|reflexivity].
    + apply Z.ltb_ge in Ez. rewrite nth_error_None. lia.
  - unfold pickMessage. destruct (chat_array chat) as [|r0 rest];
      [reflexivity|].
    apply last_nth_error.
  - unfold pickMessage, chatMessages.
    destruct (chat_array chat) as [|r0 rest]; [reflexivity|].
    rewrite (last_nth_error 0). cbn [option_map].
    rewrite (last_map_nonempty (chat_object chat) 0 (mkMessage false [])).
    reflexivity.
  - apply handleMessageEvent_skip.
Qed.

Lemma handleMessageEvent_ignores_witness :
  let chat := mkChat [0; 1]
                (fun ref => mkMessage (Nat.eqb ref 1) (lit "I felt angry.")) in
  pickMessage chat OtherId = Some 1 /\
  is_user (chat_object chat 1) = true /\
  handleMessageEvent defaultSettings
    (mkHost true (fun _ => true) (fun _ => true) (fun _ => Threw))
    chat OtherId initialStore
  = ((chat, []), initialStore).
Proof.
  intros chat. split; [reflexivity|]. split; [reflexivity|].
  apply (proj2 (proj2 (proj2 (proj2 (proj2
           (handleMessageEvent_ignores defaultSettings
              (mkHost true (fun _ => true) (fun _ => true) (fun _ => Threw))
              chat OtherId initialStore)))))).
  right. right. exists 1. split; reflexivity.
Defined.

Lemma handleMessageEvent_split settings host chat messageId st :
  run (handleMessageEvent settings host chat messageId) st = (chat, []) \/
  (exists message,
     enabled settings = true /\
     pickMessage chat messageId = Some message /\
     is_user (chat_object chat message) = false).
Proof.
  destruct (enabled settings) eqn:Hen.
  2:{ left. unfold run. rewrite handleMessageEvent_skip; auto. }
  destruct (pickMessage chat messageId) as [message|] eqn:Hp.
  2:{ left. unfold run. rewrite handleMessageEvent_skip; auto. }
  destruct (is_user (chat_object chat message)) eqn:Hu.
  - left. unfold run. rewrite handleMessageEvent_skip; [reflexivity|].
    right. right. eauto.
  - right. eauto.
Qed.

(** X13.  What a message cycle can do to the chat.  The array keeps its
    elements, and every message object is kept as it is except possibly the
    picked one.  That object is rewritten only if validation and
    auto-correction are enabled, it is not the user's and its analysis
    holds a violation; it then stays a non-user message and its new text is
    not empty and differs from the old one.  Read through the array, every
    index that holds the picked object shows the new text and every other
    index reads as before. *)
Theorem handleMessageEvent_frame settings host chat messageId st :
  let chat' := fst (run (handleMessageEvent settings host chat messageId) st)
  in
  chat_array chat' = chat_array chat /\
  (forall ref,
     chat_object chat' ref = chat_object chat ref \/
     exists correctedText,
       pickMessage chat messageId = Some ref /\
       chat_object chat' ref = mkMessage false correctedText /\
       correctedText <> [] /\ correctedText <> mes (chat_object chat ref) /\
       is_user (chat_object chat ref) = false /\
       enabled settings = true /\ autoCorrect settings = true /\
       violations (run (analyzeMessage settings (mes (chat_object chat ref)))
                       st) <> [] /\
       correctedText =
         run (correctMessage (host_generateQuietPrompt host)
                (mes (chat_object chat ref))
                (run (analyzeMessage settings (mes (chat_object chat ref)))
                     st))
             (snd (analyzeMessage settings (mes (chat_object chat ref)) st)))
  /\
  (forall j ref,
     nth_error (chat_array chat) j = Some ref ->
     nth_error (chatMessages chat') j = Some (chat_object chat' ref) /\
     (pickMessage chat messageId <> Some ref ->
      nth_error (chatMessages chat') j = nth_error (chatMessages chat) j)).
Proof.
  intros chat'.
  assert (Hmain :
    chat_array chat' = chat_array chat /\
    forall ref,
      chat_object chat' ref = chat_object chat ref \/
      exists correctedText,
        pickMessage chat messageId = Some ref /\
        chat_object chat' ref = mkMessage false correctedText /\
        correctedText <> [] /\ correctedText <> mes (chat_object chat ref) /\
        is_user (chat_object chat ref) = false /\
        enabled settings = true /\ autoCorrect settings = true /\
        violations (run (analyzeMessage settings
                           (mes (chat_object chat ref))) st) <> [] /\
        correctedText =
          run (correctMessage (host_generateQuietPrompt host)
                 (mes (chat_object chat ref))
                 (run (analyzeMessage settings (mes (chat_object chat ref)))
                      st))
              (snd (analyzeMessage settings (mes (chat_object chat ref))
                      st))).
  { subst chat'.
    destruct (handleMessageEvent_split settings host chat messageId st)
      as [H|(m0 & Hen & Hp & Hu)].
    { rewrite H. cbn [fst]. split; [reflexivity|]. auto. }
    rewrite (@handleMessageEvent_run settings host chat messageId st m0
               Hen Hp Hu).
    cbv zeta.
    destruct (violations (run (analyzeMessage settings
                                 (mes (chat_object chat m0))) st))
      as [|v l] eqn:Ev.
    { cbn [fst]. split; [reflexivity|]. auto. }
    cbn [fst].
    set (ct := run (correctMessage (host_generateQuietPrompt host)
                      (mes (chat_object chat m0))
                      (run (analyzeMessage settings
                              (mes (chat_object chat m0))) st))
                   (snd (analyzeMessage settings
                           (mes (chat_object chat m0)) st))).
    destruct (autoCorrect settings && truthy ct
              && negb (jsstring_eqb ct (mes (chat_object chat m0)))) eqn:Ec.
    2:{ split; [reflexivity|]. auto. }
    apply andb_true_iff in Ec. destruct Ec as [Ec Hneq].
    apply andb_true_iff in Ec. destruct Ec as [Hauto Htruthy].
    split; [reflexivity|].
    intros ref. destruct (Nat.eq_dec ref m0) as [->|Hne].
    - right. exists ct. rewrite setMes_same, Hu.
      split; [exact Hp|]. split; [reflexivity|].
      split; [destruct ct; [discriminate|discriminate]|].
      split.
      { intros E. rewrite E, jsstring_eqb_refl in Hneq. discriminate. }
      rewrite Ev. repeat split; auto. discriminate.
    - left. apply setMes_other. exact Hne. }
  destruct Hmain as [Harr Hobj].
  split; [exact Harr|]. split; [exact Hobj|].
  intros j ref Hj. unfold chatMessages. rewrite Harr, !nth_error_map, Hj.
  cbn [option_map]. split; [reflexivity|].
  intros Hnot. destruct (Hobj ref) as [H|(ct & Hp & _)].
  - rewrite H. reflexivity.
  - contradiction.
Qed.

Lemma handleMessageEvent_frame_witness :
  let chat := mkChat [0; 0] (fun _ => mkMessage false (lit "I felt angry.")) in
  let host := mkHost true (fun _ => true) (fun _ => true) (fun _ => Threw) in
  let chat' :=
    fst (run (handleMessageEvent defaultSettings host chat (NumberId 1))
             initialStore) in
  nth_error (chat_array chat) 0 = Some 0 /\
  nth_error (chatMessages chat') 0 = Some (chat_object chat' 0) /\
  chat_object chat' 0
  = mkMessage false (lit "[SHOW-DON'T-TELL: I felt angry].").
Proof.
  intros chat host chat'.
  split; [reflexivity|]. split; [|reflexivity].
  exact (proj1 (proj2 (proj2 (handleMessageEvent_frame defaultSettings host
                                chat (NumberId 1) initialStore))
                      0 0 eq_refl)).
Defined.

Lemma emit_not_other (o : option Emission) (c : HostCall) :
  (forall e, c <> Emit e) ->
  ~ In c (match o with Some emission => [Emit emission] | None => [] end).
Proof.
  intros H. destruct o; simpl; [|tauto].
  intros [E|[]]. exact (H _ (eq_sym E)).
Qed.

(** X14.  The chat is saved exactly when the cycle rewrote a message
    object.  The page is written to only in such a cycle, with the new text
    of the rewritten object, only where the page has the message element
    and its text element, and under the [mesid] that [indexOf] gives: the
    first index of the array that holds the picked object, which is below
    the index it was read at when the object sits at several indexes. *)
Theorem handleMessageEvent_saves settings host chat messageId st :
  let result := run (handleMessageEvent settings host chat messageId) st in
  (In SaveChatDebounced (snd result) <->
   exists ref, chat_object (fst result) ref <> chat_object chat ref) /\
  forall mesid html,
    In (SetHtml mesid html) (snd result) ->
    In SaveChatDebounced (snd result) /\
    host_messageElement host mesid = true /\
    host_mesText host mesid = true /\
    exists message k,
      pickMessage chat messageId = Some message /\
      mesid = Z.of_nat k /\
      nth_error (chat_array chat) k = Some message /\
      (forall j, j < k -> nth_error (chat_array chat) j <> Some message) /\
      chat_object (fst result) message = mkMessage false html /\
      html <> mes (chat_object chat message).
Proof.
  intros result. subst result.
  destruct (handleMessageEvent_split settings host chat messageId st)
    as [H|(m0 & Hen & Hp & Hu)].
  { rewrite H. cbn [fst snd]. split.
    - split; [contradiction|]. intros (ref & Hx). exfalso. apply Hx.
      reflexivity.
    - intros i html []. }
  rewrite (@handleMessageEvent_run settings host chat messageId st m0
             Hen Hp Hu).
  cbv zeta.
  destruct (violations (run (analyzeMessage settings
                               (mes (chat_object chat m0))) st))
    as [|v l] eqn:Ev.
  { cbn [fst snd]. split.
    - split.
      + destruct (showNoViolations settings && host_toastr host);
          [intros [Hx|[]]; discriminate Hx|contradiction].
      + intros (ref & Hx). exfalso. apply Hx. reflexivity.
    - intros i html Hin.
      destruct (showNoViolations settings && host_toastr host);
        [destruct Hin as [Hx|[]]; discriminate Hx|contradiction]. }
  cbn [fst snd].
  set (ct := run (correctMessage (host_generateQuietPrompt host)
                    (mes (chat_object chat m0))
                    (run (analyzeMessage settings
                            (mes (chat_object chat m0))) st))
                 (snd (analyzeMessage settings
                         (mes (chat_object chat m0)) st))).
  set (warn := if warnings settings then
                 match showWarnings (host_toastr host) (v :: l) with
                 | Some emission => [Emit emission]
                 | None => []
                 end
               else []).
  assert (Hw : forall c, (forall e, c <> Emit e) -> ~ In c warn).
  { intros c Hc. subst warn. destruct (warnings settings); [|tauto].
    apply emit_not_other. exact Hc. }
  destruct (autoCorrect settings && truthy ct
            && negb (jsstring_eqb ct (mes (chat_object chat m0)))) eqn:Ec.
  - apply andb_true_iff in Ec. destruct Ec as [_ Hneq].
    assert (Hne : ct <> mes (chat_object chat m0)).
    { intros E. rewrite E, jsstring_eqb_refl in Hneq. discriminate. }
    assert (Hsave : In SaveChatDebounced
              (((if host_messageElement host (indexOf m0 (chat_array chat))
                    && host_mesText host (indexOf m0 (chat_array chat))
                 then [SetHtml (indexOf m0 (chat_array chat)) ct] else [])
                ++ [SaveChatDebounced]) ++ warn)).
    { apply in_or_app. left. apply in_or_app. right. left. reflexivity. }
    split.
    + split; [|intros _; exact Hsave].
      intros _. exists m0. rewrite setMes_same.
      intros E. apply Hne. rewrite <- E. reflexivity.
    + intros i html Hin.
      apply in_app_or in Hin. destruct Hin as [Hin|Hin].
      2:{ exfalso. revert Hin. apply Hw. discriminate. }
      apply in_app_or in Hin. destruct Hin as [Hin|[Hx|[]]];
        [|discriminate Hx].
      destruct (host_messageElement host (indexOf m0 (chat_array chat))
                && host_mesText host (indexOf m0 (chat_array chat))) eqn:Eh;
        [|contradiction].
      destruct Hin as [Hx|[]]. injection Hx as <- <-.
      apply andb_true_iff in Eh. destruct Eh as [Eh1 Eh2].
      split; [exact Hsave|]. split; [exact Eh1|]. split; [exact Eh2|].
      destruct (@indexOf_first m0 (chat_array chat)
                  (@pickMessage_In chat messageId m0 Hp))
        as (k & Hk & Hn & Hfirst).
      exists m0, k. rewrite setMes_same, Hu. auto 7.
  - cbn [app]. split.
    + split.
      * intros Hin. exfalso. revert Hin. apply Hw. discriminate.
      * intros (ref & Hx). exfalso. apply Hx. reflexivity.
    + intros i html Hin. exfalso. revert Hin. apply Hw. discriminate.
Qed.

Lemma handleMessageEvent_saves_witness :
  let chat := mkChat [0; 0] (fun _ => mkMessage false (lit "I felt angry.")) in
  let host := mkHost true (fun _ => true) (fun _ => true) (fun _ => Threw) in
  let result :=
    run (handleMessageEvent defaultSettings host chat (NumberId 1))
        initialStore in
  pickMessage chat (NumberId 1) = Some 0 /\
  map mes (chatMessages (fst result))
    = [lit "[SHOW-DON'T-TELL: I felt angry].";
       lit "[SHOW-DON'T-TELL: I felt angry]."] /\
  In (SetHtml 0 (lit "[SHOW-DON'T-TELL: I felt angry].")) (snd result) /\
  In SaveChatDebounced (snd result).
Proof.
  intros chat host result.
  assert (Hin : In (SetHtml 0 (lit "[SHOW-DON'T-TELL: I felt angry]."))
                   (snd result)) by (vm_compute; auto).
  split; [reflexivity|]. split; [reflexivity|]. split; [exact Hin|].
  exact (proj1 (proj2 (handleMessageEvent_saves defaultSettings host chat
                         (NumberId 1) initialStore) _ _ Hin)).
Defined.

(** X15.  What a cycle reports for a message it works on.  The warning of
    [showWarnings] is emitted exactly when warnings are enabled and the
    analysis holds a violation, whether or not the text was corrected and
    whatever the rewrite call did; the success toast is shown exactly when
    the analysis holds no violation, the notification is enabled and
    [toastr] is defined. *)
Theorem handleMessageEvent_reports settings host chat messageId st message :
  enabled settings = true ->
  pickMessage chat messageId = Some message ->
  is_user (chat_object chat message) = false ->
  let analysis :=
    run (analyzeMessage settings (mes (chat_object chat message))) st in
  let calls := snd (run (handleMessageEvent settings host chat messageId) st)
  in
  (forall emission,
     In (Emit emission) calls <->
     warnings settings = true /\
     showWarnings (host_toastr host) (violations analysis) = Some emission) /\
  (warnings settings = true -> violations analysis <> [] ->
   exists emission, In (Emit emission) calls) /\
  (forall call,
     In call calls /\ (exists m t n, call = ToastSuccess m t n) <->
     call = successToast analysis /\ violations analysis = [] /\
     showNoViolations settings = true /\ host_toastr host = true).
Proof.
  intros Hen Hp Hu analysis calls. subst calls.
  rewrite (@handleMessageEvent_run settings host chat messageId st message
             Hen Hp Hu).
  cbv zeta. fold analysis.
  destruct (violations analysis) as [|v l] eqn:Ev.
  - cbn [snd]. split; [|split].
    + intros emission. split.
      * destruct (showNoViolations settings && host_toastr host);
          [intros [Hx|[]]; discriminate Hx|contradiction].
      * intros [_ Hx]. discriminate Hx.
    + intros _ Hx. exfalso. apply Hx. reflexivity.
    + intros call. split.
      * intros [Hin _].
        destruct (showNoViolations settings && host_toastr host) eqn:E;
          [|contradiction].
        destruct Hin as [<-|[]]. apply andb_true_iff in E. tauto.
      * intros (-> & _ & H1 & H2). rewrite H1, H2. simpl.
        split; [left; reflexivity|]. unfold successToast. eauto.
  - cbn [snd].
    set (ct := run (correctMessage (host_generateQuietPrompt host)
                      (mes (chat_object chat message)) analysis)
                   (snd (analyzeMessage settings
                           (mes (chat_object chat message)) st))).
    set (i := indexOf message (chat_array chat)).
    set (fix1 := if autoCorrect settings && truthy ct
                    && negb (jsstring_eqb ct (mes (chat_object chat message)))
                 then (if host_messageElement host i && host_mesText host i
                       then [SetHtml i ct] else [])
                      ++ [SaveChatDebounced]
                 else []).
    assert (Hfix : forall c, In c fix1 ->
              (exists a b, c = SetHtml a b) \/ c = SaveChatDebounced).
    { intros c Hc. subst fix1.
      destruct (autoCorrect settings && truthy ct
                && negb (jsstring_eqb ct (mes (chat_object chat message))));
        [|contradiction].
      apply in_app_or in Hc. destruct Hc as [Hc|[<-|[]]]; [|auto].
      destruct (host_messageElement host i && host_mesText host i);
        [|contradiction].
      destruct Hc as [<-|[]]. eauto. }
    assert (Hsome : exists e, showWarnings (host_toastr host) (v :: l)
                              = Some e).
    { unfold showWarnings. eexists. reflexivity. }
    destruct Hsome as (e0 & He0). rewrite He0.
    split; [|split].
    + intros emission. split.
      * intros Hin. apply in_app_or in Hin. destruct Hin as [Hin|Hin].
        -- apply Hfix in Hin. destruct Hin as [(a & b & Hx)|Hx];
             discriminate Hx.
        -- destruct (warnings settings); [|contradiction].
           destruct Hin as [Hx|[]]. injection Hx as <-. auto.
      * intros [Hw Hx]. injection Hx as <-. rewrite Hw.
        apply in_or_app. right. left. reflexivity.
    + intros Hw _. exists e0. rewrite Hw. apply in_or_app. right. left.
      reflexivity.
    + intros call. split.
      * intros [Hin (m & t & n & ->)]. exfalso.
        apply in_app_or in Hin. destruct Hin as [Hin|Hin].
        -- apply Hfix in Hin. destruct Hin as [(a & b & Hx)|Hx];
             discriminate Hx.
        -- destruct (warnings settings); [|contradiction].
           destruct Hin as [Hx|[]]. discriminate Hx.
      * intros (_ & Hx & _). discriminate Hx.
Qed.

Lemma handleMessageEvent_reports_witness :
  let chat := mkChat [0] (fun _ => mkMessage false (lit "I felt angry.")) in
  let host := mkHost true (fun _ => true) (fun _ => true)
                     (fun _ => Returned []) in
  let analysis :=
    run (analyzeMessage defaultSettings (lit "I felt angry.")) initialStore in
  enabled defaultSettings = true /\
  pickMessage chat (NumberId 0) = Some 0 /\
  is_user (chat_object chat 0) = false /\
  warnings defaultSettings = true /\ violations analysis <> [] /\
  exists emission,
    In (Emit emission)
       (snd (run (handleMessageEvent defaultSettings host chat (NumberId 0))
                 initialStore)).
Proof.
  intros chat host analysis.
  assert (Hv : violations analysis <> []) by (vm_compute; discriminate).
  split; [reflexivity|]. split; [reflexivity|]. split; [reflexivity|].
  split; [reflexivity|]. split; [exact Hv|].
  exact (proj1 (proj2 (@handleMessageEvent_reports defaultSettings host chat
                         (NumberId 0) initialStore 0
                         eq_refl eq_refl eq_refl)) eq_refl Hv).
Defined.

(** ** Strict mode and the good-ending keywords *)

Lemma startsWith_iff p : forall s,
  startsWith p s = true <-> exists post, s = p ++ post.
Proof.
  intros s. split.
  - intros H. exists (skipn (length p) s). apply startsWith_split. exact H.
  - intros (post & ->). apply startsWith_app.
Qed.

Lemma includes_iff sub : forall s,
  includes s sub = true <-> Contains s sub.
Proof.
  unfold Contains. induction s as [|c s IH].
  - cbn [includes]. rewrite orb_false_r, startsWith_iff. split.
    + intros (post & H). exists [], post. exact H.
    + intros (pre & post & H). destruct pre; [|discriminate].
      exists post. exact H.
  - cbn [includes]. rewrite orb_true_iff, startsWith_iff, IH. split.
    + intros [(post & H)|(pre & post & H)].
      * exists [], post. exact H.
      * exists (c :: pre), post. rewrite H. reflexivity.
    + intros (pre & post & H). destruct pre as [|x pre].
      * left. exists post. exact H.
      * right. injection H as -> H. exists pre, post. exact H.
Qed.

Lemma hasGoodEnding_iff e :
  hasGoodEnding e = true <->
  exists keywords keyword,
    In keywords GOOD_ENDING_TYPES /\ In keyword keywords /\
    Contains (toLowerCase e) keyword.
Proof.
  unfold hasGoodEnding. rewrite existsb_exists. split.
  - intros (keywords & Hk & H). apply existsb_exists in H.
    destruct H as (keyword & Hw & H). apply includes_iff in H.
    exists keywords, keyword. repeat split; auto.
    assert (Hlow : forallb (forallb (fun k =>
                      jsstring_eqb (toLowerCase k) k)) GOOD_ENDING_TYPES
                   = true) by reflexivity.
    rewrite forallb_forall in Hlow. specialize (Hlow _ Hk).
    rewrite forallb_forall in Hlow. specialize (Hlow _ Hw).
    apply jsstring_eqb_true in Hlow. rewrite <- Hlow. exact H.
  - intros (keywords & keyword & Hk & Hw & H).
    exists keywords. split; [exact Hk|]. apply existsb_exists.
    exists keyword. split; [exact Hw|]. apply includes_iff.
    assert (Hlow : forallb (forallb (fun k =>
                      jsstring_eqb (toLowerCase k) k)) GOOD_ENDING_TYPES
                   = true) by reflexivity.
    rewrite forallb_forall in Hlow. specialize (Hlow _ Hk).
    rewrite forallb_forall in Hlow. specialize (Hlow _ Hw).
    apply jsstring_eqb_true in Hlow. rewrite Hlow. exact H.
Qed.

(** X16.  With the scene-ending check on, the analysis holds the medium
    scene-ending violation exactly when strict mode is on and no good-ending
    keyword is a span of the lower-cased joined ending window; a keyword
    counts wherever it stands, inside a longer word too.  There is never
    more than one such violation, and it comes after the high ones. *)
Theorem strict_mode_violation settings text st :
  sceneEndings (validationRules settings) = true ->
  let analysis := run (analyzeMessage settings text) st in
  let endingText := join space (lastSentences analysis) in
  filter (isType scene_ending) (violations analysis)
  = filter (isSeverity high) (violations analysis)
    ++ filter (fun v => isType scene_ending v && isSeverity medium v)
              (violations analysis) /\
  filter (fun v => isType scene_ending v && isSeverity medium v)
         (violations analysis)
  = (if strictMode settings && negb (hasGoodEnding endingText)
     then [abstractViolation endingText] else []) /\
  (hasGoodEnding endingText = true <->
   exists keywords keyword,
     In keywords GOOD_ENDING_TYPES /\ In keyword keywords /\
     Contains (toLowerCase endingText) keyword).
Proof.
  intros Hon analysis endingText. subst analysis endingText.
  rewrite analyzeMessage_lastSentences.
  set (e := join space (getLastSentences text 3)).
  assert (Hmed : filter (fun v => isType scene_ending v && isSeverity medium v)
                   (violations (run (analyzeMessage settings text) st))
                 = if strictMode settings && negb (hasGoodEnding e)
                   then [abstractViolation e] else []).
  { rewrite analyzeMessage_violations, Hon, !filter_app.
    rewrite (@filter_none _ _ (if showDontTell _ then _ else _)).
    2:{ destruct (showDontTell _); [|constructor].
        eapply Forall_impl; [|apply checkEmotionLabels_kind].
        simpl. intros v [Hv _]. unfold isType. rewrite Hv. reflexivity. }
    rewrite (@filter_none _ _ (if dialogueNaturalness _ then _ else _)).
    2:{ destruct (dialogueNaturalness _); [|constructor].
        eapply Forall_impl; [|apply checkDialogue_kind].
        simpl. intros v [Hv _]. unfold isType. rewrite Hv. reflexivity. }
    rewrite !app_nil_r.
    pose proof (checkForbidden_kind FORBIDDEN_PATTERNS e 0 st) as Hk.
    unfold run in *. unfold checkSceneEnding, bind. fold e.
    destruct (checkForbidden 0 FORBIDDEN_PATTERNS e st) as [found st1].
    unfold ret. cbn [fst] in *.
    assert (Hf : filter (fun v => isType scene_ending v
                                  && isSeverity medium v) found = []).
    { apply filter_none. eapply Forall_impl; [|exact Hk].
      simpl. intros v [_ Hv]. unfold isSeverity. rewrite Hv.
      apply andb_false_r. }
    replace (strictMode settings && negb (hasGoodEnding e))
      with (negb (hasGoodEnding e) && strictMode settings)
      by apply andb_comm.
    destruct (negb (hasGoodEnding e) && strictMode settings).
    - rewrite filter_app, Hf. reflexivity.
    - exact Hf. }
  split; [|split; [exact Hmed|apply hasGoodEnding_iff]].
  rewrite Hmed, analysis_high, violations_by_type, Hon.
  unfold run, checkSceneEnding, bind. fold e.
  destruct (checkForbidden 0 FORBIDDEN_PATTERNS e st) as [found st1].
  unfold ret. cbn [fst].
  replace (strictMode settings && negb (hasGoodEnding e))
    with (negb (hasGoodEnding e) && strictMode settings)
    by apply andb_comm.
  destruct (negb (hasGoodEnding e) && strictMode settings);
    [reflexivity|symmetry; apply app_nil_r].
Qed.

Lemma strict_mode_violation_witness :
  let text := lit "The room was unasked for." in
  sceneEndings (validationRules strictSettings) = true /\
  hasGoodEnding (lit "The room was unasked for.") = true /\
  filter (fun v => isType scene_ending v && isSeverity medium v)
         (violations (run (analyzeMessage strictSettings text) initialStore))
  = [].
Proof.
  intros text. split; [reflexivity|]. split; [reflexivity|].
  rewrite (proj1 (proj2 (@strict_mode_violation strictSettings text
                           initialStore eq_refl))).
  reflexivity.
Defined.

(** ** An accepted rewrite *)

Lemma forallb_rev (p : N -> bool) (l : jsstring) :
  forallb p l = true -> forallb p (rev l) = true.
Proof.
  rewrite !forallb_forall. intros H x Hx. apply H. apply in_rev. exact Hx.
Qed.

Lemma trim_shape s :
  (exists l r,
     s = l ++ trim s ++ r /\
     forallb isWhiteSpace l = true /\ forallb isWhiteSpace r = true) /\
  (forall c t, trim s = c :: t -> isWhiteSpace c = false) /\
  (forall t c, trim s = t ++ [c] -> isWhiteSpace c = false).
Proof.
  unfold trim.
  destruct (dropWhile_split isWhiteSpace s) as (l & Hs & Hl).
  set (d := dropWhile isWhiteSpace s) in *.
  destruct (dropWhile_split isWhiteSpace (rev d)) as (r & Hd & Hr).
  set (t0 := dropWhile isWhiteSpace (rev d)) in *.
  assert (Hd' : d = rev t0 ++ rev r).
  { rewrite <- rev_app_distr, <- Hd, rev_involutive. reflexivity. }
  split; [|split].
  - exists l, (rev r). split; [rewrite <- Hd'; exact Hs|].
    split; [exact Hl|apply forallb_rev; exact Hr].
  - intros c t Ht. rewrite Ht in Hd'. simpl in Hd'.
    subst d. exact (dropWhile_head _ _ Hd').
  - intros t c Ht.
    assert (Hrev : t0 = c :: rev t).
    { rewrite <- (rev_involutive t0), Ht, rev_app_distr. reflexivity. }
    subst t0. exact (dropWhile_head _ _ Hrev).
Qed.

(** X17.  When the rewrite call returns and [correctMessage] gives back
    something else than the text, that result is the response without the
    white space around it: it is not empty, it neither starts nor ends with
    white space, and the response is that result between two runs of white
    space.  No regex object is touched. *)
Theorem correctMessage_accepts generateQuietPrompt text analysis st response :
  generateQuietPrompt (correctionPrompt text analysis) = Returned response ->
  let out := run (correctMessage generateQuietPrompt text analysis) st in
  out <> text ->
  snd (correctMessage generateQuietPrompt text analysis st) = st /\
  response <> text /\ out <> [] /\
  (exists l r,
     response = l ++ out ++ r /\
     forallb isWhiteSpace l = true /\ forallb isWhiteSpace r = true) /\
  (forall c t, out = c :: t -> isWhiteSpace c = false) /\
  (forall t c, out = t ++ [c] -> isWhiteSpace c = false).
Proof.
  intros Hr out. subst out. unfold run, correctMessage. rewrite Hr.
  destruct (truthy response && truthy (trim response)
            && negb (jsstring_eqb response text)) eqn:E.
  - unfold ret. cbn [fst snd]. intros _.
    apply andb_true_iff in E. destruct E as [E Hneq].
    apply andb_true_iff in E. destruct E as [_ Ht].
    destruct (trim_shape response) as (H1 & H2 & H3).
    split; [reflexivity|]. split.
    { intros ->. rewrite jsstring_eqb_refl in Hneq. discriminate. }
    split.
    { destruct (trim response); [discriminate|discriminate]. }
    auto.
  - unfold ret. cbn [fst]. intros H. exfalso. apply H. reflexivity.
Qed.

Lemma correctMessage_accepts_witness :
  let text := lit "I felt angry." in
  let analysis := run (analyzeMessage defaultSettings text) initialStore in
  let generate := fun _ : jsstring => Returned (lit "  My jaw clenched. ") in
  run (correctMessage generate text analysis) initialStore
    = lit "My jaw clenched." /\
  run (correctMessage generate text analysis) initialStore <> text /\
  run (correctMessage generate text analysis) initialStore <> [].
Proof.
  intros text analysis generate.
  assert (H : run (correctMessage generate text analysis) initialStore
              <> text) by (vm_compute; discriminate).
  split; [reflexivity|]. split; [exact H|].
  exact (proj1 (proj2 (proj2 (@correctMessage_accepts generate text analysis
                                initialStore (lit "  My jaw clenched. ")
                                eq_refl H)))).
Defined.
